(** * fluxio C API examples: [capi/examples/client.c] and [capi/examples/upload.c]

    A shallow embedding of the two driving programs and of the callbacks they
    hand to the engine.  The engine ([fluxio.h]) and the operating system are
    external: every call the programs make to them is recorded as an [event],
    and every value they hand back is an input of the model. *)

From stdpp Require Import gmap sets list strings.

Local Open Scope Z_scope.

(** ** The external interface *)

(** Constants that [fluxio.h] and [errno.h] define and the examples use by
    name only. *)
Class fluxio_h := {
  FLUXIO_IO_PENDING : Z;
  FLUXIO_IO_ERROR : Z;
  FLUXIO_POLL_READY : Z;
  FLUXIO_POLL_ERROR : Z;
  EAGAIN : Z
}.

(** [fluxio_task_return_type], as far as the examples name it. *)
Inductive fluxio_task_return_type :=
| FLUXIO_TASK_EMPTY
| FLUXIO_TASK_ERROR
| FLUXIO_TASK_CLIENTCONN
| FLUXIO_TASK_RESPONSE
| FLUXIO_TASK_BUF.

(** [typedef enum { EXAMPLE_NOT_SET = 0, ... } example_id;] *)
Definition EXAMPLE_NOT_SET : Z := 0.
Definition EXAMPLE_HANDSHAKE : Z := 1.
Definition EXAMPLE_SEND : Z := 2.
Definition EXAMPLE_RESP_BODY : Z := 3.

(** [(example_id)fluxio_task_userdata(task)]: the conversion of the [void *]
    to the enumeration keeps the low 32 bits of the pointer. *)
Definition example_id_of (userdata : Z) : Z := userdata `mod` 2 ^ 32.
Arguments example_id_of : simpl never.

(** A [fluxio_waker *] is a handle; [None] is the [NULL] pointer. *)
Abbreviation fluxio_waker := nat (only parsing).

(** The two directions of a connection; each has one waker slot. *)
Inductive direction := Rd | Wr.

#[global] Instance direction_eq_dec : EqDecision direction.
Proof. solve_decision. Defined.

(** Calls that leave the program, in program order.  Calls whose arguments
    and results play no part are recorded by name ([EvCall]). *)
Inductive event :=
| EvRead (fd buf_len : Z)                 (* read(conn->fd, buf, buf_len) *)
| EvWrite (fd buf_len : Z)                (* write(conn->fd, buf, buf_len) *)
| EvWakerFree (w : fluxio_waker)          (* fluxio_waker_free(w) *)
| EvContextWaker (d : direction) (w : fluxio_waker)
                                          (* w = fluxio_context_waker(ctx), asked by the callback of direction d *)
| EvWakerWake (w : option fluxio_waker)   (* fluxio_waker_wake(w) *)
| EvExecutorPoll (task : option (Z * fluxio_task_return_type))
                                          (* fluxio_executor_poll(exec) returned: userdata and type of the task *)
| EvSetUserdata (tag : Z)                 (* fluxio_task_set_userdata(_, tag) *)
| EvSelect (nfds : Z) (fds_read fds_write : gset Z)
                                          (* select(nfds, &fds_read, &fds_write, &fds_excep, NULL) *)
| EvPrintf (fmt : string)                 (* printf(fmt, ...); fmt as in the C source text *)
| EvCall (fn : string).                   (* any other call, by name *)

(** Modelled from the spec: [fluxio_context_waker] hands out "a fresh Waker
    Handle from the current poll context".  The supply is the next unused
    handle. *)
Definition fluxio_context_waker (supply : nat) : fluxio_waker * nat :=
  (supply, S supply).

(** ** The non-blocking I/O adapter (identical in both files) *)

(** [struct conn_data] *)
Record conn_data := {
  fd : Z;
  read_waker : option fluxio_waker;
  write_waker : option fluxio_waker
}.

Definition slot (conn : conn_data) (d : direction) : option fluxio_waker :=
  match d with Rd => read_waker conn | Wr => write_waker conn end.

(** What a callback hands back: the [size_t] it returns, the connection and
    the waker supply after it, and the calls it made. *)
Record cb_result := {
  cb_ret : Z;
  cb_conn : conn_data;
  cb_supply : nat;
  cb_trace : list event
}.

(** [if (conn->read_waker != NULL) fluxio_waker_free(conn->read_waker);] *)
Definition free_if_set (w : option fluxio_waker) : list event :=
  match w with
  | Some old => [EvWakerFree old]
  | None => []
  end.

Section Adapter.
Context `{fluxio_h}.

(** [read_cb]; [ret] and [errno] are what [read] hands back.  On the first
    branch [ret] is not negative, so its conversion to [size_t] keeps the
    value. *)
Definition read_cb (conn : conn_data) (supply : nat) (buf_len ret errno : Z) : cb_result :=
  if 0 <=? ret then
    {| cb_ret := ret; cb_conn := conn; cb_supply := supply;
       cb_trace := [EvRead (fd conn) buf_len] |}
  else if negb (errno =? EAGAIN) then
    {| cb_ret := FLUXIO_IO_ERROR; cb_conn := conn; cb_supply := supply;
       cb_trace := [EvRead (fd conn) buf_len] |}
  else
    let '(w, supply') := fluxio_context_waker supply in
    {| cb_ret := FLUXIO_IO_PENDING;
       cb_conn := {| fd := fd conn; read_waker := Some w; write_waker := write_waker conn |};
       cb_supply := supply';
       cb_trace := EvRead (fd conn) buf_len :: free_if_set (read_waker conn)
                     ++ [EvContextWaker Rd w] |}.

(** [write_cb] *)
Definition write_cb (conn : conn_data) (supply : nat) (buf_len ret errno : Z) : cb_result :=
  if 0 <=? ret then
    {| cb_ret := ret; cb_conn := conn; cb_supply := supply;
       cb_trace := [EvWrite (fd conn) buf_len] |}
  else if negb (errno =? EAGAIN) then
    {| cb_ret := FLUXIO_IO_ERROR; cb_conn := conn; cb_supply := supply;
       cb_trace := [EvWrite (fd conn) buf_len] |}
  else
    let '(w, supply') := fluxio_context_waker supply in
    {| cb_ret := FLUXIO_IO_PENDING;
       cb_conn := {| fd := fd conn; read_waker := read_waker conn; write_waker := Some w |};
       cb_supply := supply';
       cb_trace := EvWrite (fd conn) buf_len :: free_if_set (write_waker conn)
                     ++ [EvContextWaker Wr w] |}.

(** One invocation of a callback by the engine, with what the transfer
    hands back. *)
Inductive io_call :=
| CbRead (buf_len ret errno : Z)
| CbWrite (buf_len ret errno : Z).

Definition call_cb (conn : conn_data) (supply : nat) (c : io_call) : cb_result :=
  match c with
  | CbRead n ret errno => read_cb conn supply n ret errno
  | CbWrite n ret errno => write_cb conn supply n ret errno
  end.

(** The engine invoking the callbacks one after the other. *)
Fixpoint run_callbacks (cbs : list io_call) (conn : conn_data) (supply : nat)
  : conn_data * nat * list event :=
  match cbs with
  | [] => (conn, supply, [])
  | c :: cbs' =>
      let r := call_cb conn supply c in
      let '(conn', supply', tr) := run_callbacks cbs' (cb_conn r) (cb_supply r) in
      (conn', supply', cb_trace r ++ tr)
  end.
End Adapter.

(** [free_conn_data] *)
Definition free_conn_data (conn : conn_data) : conn_data * list event :=
  ({| fd := fd conn; read_waker := None; write_waker := None |},
   free_if_set (read_waker conn) ++ free_if_set (write_waker conn) ++ [EvCall "free"]).

(** ** The continuation dispatcher *)

(** What the engine hands back while one polled task is dispatched. *)
Record task_answer := {
  t_userdata : Z;                      (* fluxio_task_userdata(task) *)
  t_type : fluxio_task_return_type;    (* fluxio_task_type(task) *)
  t_value_null : bool;                 (* fluxio_task_value(task) == NULL *)
  t_set_method : Z;                    (* fluxio_request_set_method(...) *)
  t_set_uri : Z;                       (* fluxio_request_set_uri(...) *)
  t_headers : nat;                     (* headers fluxio_headers_foreach visits *)
  t_len_first : bool;                  (* upload.c: of the arguments of write(1, ...),
                                          fluxio_buf_len is evaluated before
                                          fluxio_buf_bytes; C leaves the order open *)
  t_write_ret : Z                      (* upload.c: write(1, ...); not looked at *)
}.

(** How a [case] of the [switch] is left: by [break], by [return status], or
    by a failed [assert]. *)
Inductive control :=
| Break
| Return (status : Z)
| AssertFailed.

Definition is_error (t : fluxio_task_return_type) : bool :=
  match t with FLUXIO_TASK_ERROR => true | _ => false end.

Definition is_clientconn (t : fluxio_task_return_type) : bool :=
  match t with FLUXIO_TASK_CLIENTCONN => true | _ => false end.

Definition is_response (t : fluxio_task_return_type) : bool :=
  match t with FLUXIO_TASK_RESPONSE => true | _ => false end.

Definition is_buf (t : fluxio_task_return_type) : bool :=
  match t with FLUXIO_TASK_BUF => true | _ => false end.

Definition is_empty (t : fluxio_task_return_type) : bool :=
  match t with FLUXIO_TASK_EMPTY => true | _ => false end.

(** [print_each_header], once per header of the response. *)
Definition print_each_header (n : nat) : list event :=
  replicate n (EvPrintf "%.*s: %.*s\n").

(** client.c, label [fail]: [if (err) { ... }  return 1;] *)
Definition client_fail (err_null : bool) : list event :=
  if err_null then []
  else [EvCall "fluxio_error_code"; EvPrintf "error code: %d\n";
        EvCall "fluxio_error_print"; EvPrintf "details: %.*s\n";
        EvCall "fluxio_error_free"].

(** client.c, the body of the inner loop after a task was polled. *)
Definition client_dispatch (conn : conn_data) (t : task_answer)
  : control * conn_data * list event :=
  let id := example_id_of (t_userdata t) in
  let ud := [EvCall "fluxio_task_userdata"] in
  let ty := [EvCall "fluxio_task_type"] in
  if id =? EXAMPLE_HANDSHAKE then
    if is_error (t_type t) then
      (Return 1, conn,
       ud ++ ty ++ [EvPrintf "handshake error!\n"; EvCall "fluxio_task_value"]
          ++ client_fail (t_value_null t))
    else if negb (is_clientconn (t_type t)) then
      (AssertFailed, conn, ud ++ ty ++ ty)
    else
      let pre := ud ++ ty ++ ty ++
        [EvPrintf "preparing http request ...\n";
         EvCall "fluxio_task_value"; EvCall "fluxio_task_free";
         EvCall "fluxio_request_new"; EvCall "fluxio_request_set_method"] in
      if negb (t_set_method t =? 0) then
        (Return 1, conn, pre ++ [EvPrintf "error setting method\n"])
      else if negb (t_set_uri t =? 0) then
        (Return 1, conn,
         pre ++ [EvCall "fluxio_request_set_uri"; EvPrintf "error setting uri\n"])
      else
        (Break, conn,
         pre ++ [EvCall "fluxio_request_set_uri";
                 EvCall "fluxio_request_headers"; EvCall "fluxio_headers_set";
                 EvCall "fluxio_clientconn_send"; EvSetUserdata EXAMPLE_SEND;
                 EvPrintf "sending ...\n"; EvCall "fluxio_executor_push";
                 EvCall "fluxio_clientconn_free"])
  else if id =? EXAMPLE_SEND then
    if is_error (t_type t) then
      (Return 1, conn,
       ud ++ ty ++ [EvPrintf "send error!\n"; EvCall "fluxio_task_value"]
          ++ client_fail (t_value_null t))
    else if negb (is_response (t_type t)) then
      (AssertFailed, conn, ud ++ ty ++ ty)
    else
      (Break, conn,
       ud ++ ty ++ ty ++
       [EvCall "fluxio_task_value"; EvCall "fluxio_task_free";
        EvCall "fluxio_response_status"; EvCall "fluxio_response_reason_phrase";
        EvCall "fluxio_response_reason_phrase_len";
        EvPrintf "\nResponse Status: %d %.*s\n";
        EvCall "fluxio_response_headers"; EvCall "fluxio_headers_foreach"]
       ++ print_each_header (t_headers t) ++
       [EvPrintf "\n";
        EvCall "fluxio_response_body"; EvCall "fluxio_body_foreach";
        EvSetUserdata EXAMPLE_RESP_BODY; EvCall "fluxio_executor_push";
        EvCall "fluxio_response_free"])
  else if id =? EXAMPLE_RESP_BODY then
    if is_error (t_type t) then
      (Return 1, conn,
       ud ++ ty ++ [EvPrintf "body error!\n"; EvCall "fluxio_task_value"]
          ++ client_fail (t_value_null t))
    else if negb (is_empty (t_type t)) then
      (AssertFailed, conn, ud ++ ty ++ ty)
    else
      let '(conn', freed) := free_conn_data conn in
      (Return 0, conn',
       ud ++ ty ++ ty ++
       [EvPrintf "\n -- Done! -- \n";
        EvCall "fluxio_task_free"; EvCall "fluxio_executor_free"] ++ freed)
  else if id =? EXAMPLE_NOT_SET then
    (Break, conn, ud ++ [EvCall "fluxio_task_free"])
  else
    (Break, conn, ud).

(** upload.c, the body of the inner loop after a task was polled. *)
Definition upload_dispatch (conn : conn_data) (t : task_answer)
  : control * conn_data * list event :=
  let id := example_id_of (t_userdata t) in
  let hd := [EvCall "fluxio_task_type"; EvCall "fluxio_task_userdata"] in
  if id =? EXAMPLE_HANDSHAKE then
    if is_error (t_type t) then
      (Return 1, conn, hd ++ [EvPrintf "handshake error!\n"])
    else if negb (is_clientconn (t_type t)) then
      (AssertFailed, conn, hd)
    else
      let pre := hd ++
        [EvPrintf "preparing http request ...\n";
         EvCall "fluxio_task_value"; EvCall "fluxio_task_free";
         EvCall "fluxio_request_new"; EvCall "fluxio_request_set_method"] in
      if negb (t_set_method t =? 0) then
        (Return 1, conn, pre ++ [EvPrintf "error setting method\n"])
      else if negb (t_set_uri t =? 0) then
        (Return 1, conn,
         pre ++ [EvCall "fluxio_request_set_uri"; EvPrintf "error setting uri\n"])
      else
        (Break, conn,
         pre ++ [EvCall "fluxio_request_set_uri";
                 EvCall "fluxio_request_headers";
                 EvCall "fluxio_headers_set"; EvCall "fluxio_headers_set";
                 EvPrintf "    with expect-continue ...\n";
                 EvCall "fluxio_request_on_informational";
                 EvCall "fluxio_body_new"; EvCall "fluxio_body_set_userdata";
                 EvCall "fluxio_body_set_data_func"; EvCall "fluxio_request_set_body";
                 EvCall "fluxio_clientconn_send"; EvSetUserdata EXAMPLE_SEND;
                 EvPrintf "sending ...\n"; EvCall "fluxio_executor_push";
                 EvCall "fluxio_clientconn_free"])
  else if id =? EXAMPLE_SEND then
    if is_error (t_type t) then
      (Return 1, conn, hd ++ [EvPrintf "send error!\n"])
    else if negb (is_response (t_type t)) then
      (AssertFailed, conn, hd)
    else
      (Break, conn,
       hd ++
       [EvCall "fluxio_task_value"; EvCall "fluxio_task_free";
        EvCall "fluxio_response_status"; EvPrintf "\nResponse Status: %d\n";
        EvCall "fluxio_response_headers"; EvCall "fluxio_headers_foreach"]
       ++ print_each_header (t_headers t) ++
       [EvPrintf "\n";
        EvCall "fluxio_response_body"; EvCall "fluxio_body_data";
        EvSetUserdata EXAMPLE_RESP_BODY; EvCall "fluxio_executor_push";
        EvCall "fluxio_response_free"])
  else if id =? EXAMPLE_RESP_BODY then
    if is_error (t_type t) then
      (Return 1, conn, hd ++ [EvPrintf "body error!\n"])
    else if is_buf (t_type t) then
      (Break, conn,
       hd ++ [EvCall "fluxio_task_value"]
       ++ (if t_len_first t then [EvCall "fluxio_buf_len"; EvCall "fluxio_buf_bytes"]
           else [EvCall "fluxio_buf_bytes"; EvCall "fluxio_buf_len"])
       ++ [EvCall "write"; EvCall "fluxio_buf_free"; EvCall "fluxio_task_free";
           EvCall "fluxio_body_data"; EvSetUserdata EXAMPLE_RESP_BODY;
           EvCall "fluxio_executor_push"])
    else if negb (is_empty (t_type t)) then
      (AssertFailed, conn, hd)
    else
      let '(conn', freed) := free_conn_data conn in
      (Return 0, conn',
       hd ++
       [EvCall "fluxio_task_free"; EvCall "fluxio_body_free";
        EvPrintf "\n -- Done! -- \n"; EvCall "fluxio_executor_free"]
       ++ freed ++ [EvCall "free"])
  else if id =? EXAMPLE_NOT_SET then
    (Break, conn, hd ++ [EvCall "fluxio_task_free"])
  else
    (Break, conn, hd).

(** The two driving programs. *)
Inductive program := Client | Upload.

Definition dispatch (prog : program) : conn_data → task_answer → control * conn_data * list event :=
  match prog with
  | Client => client_dispatch
  | Upload => upload_dispatch
  end.

(** ** The executor loop: [while (1) { while (1) { ... }  select ... }] *)

(** Where the program stands between two calls that block or poll: about to
    call [fluxio_executor_poll] (drain phase), inside [select] with the two
    interest sets it passed (wait phase), or gone. *)
Inductive pc :=
| Drain
| Wait (fds_read fds_write : gset Z)
| Exited (status : Z)
| Aborted.

Record state := {
  st_pc : pc;
  st_conn : conn_data;
  st_supply : nat
}.

(** What the outside hands back to the call the program is standing at.
    While [fluxio_executor_poll] runs, the engine invokes the I/O callbacks
    [cbs]; then it returns a completed task or [NULL].  [select] returns
    [sel_ret]; [ready_read] and [ready_write] are the descriptors the kernel
    finds ready. *)
Inductive answer :=
| APoll (cbs : list io_call) (task : option task_answer)
| ASelect (sel_ret : Z) (ready_read ready_write : gset Z).

(** [FD_ZERO(&fds); if (waker) FD_SET(conn->fd, &fds);] *)
Definition fd_set_of (conn : conn_data) (w : option fluxio_waker) : gset Z :=
  match w with
  | Some _ => {[ fd conn ]}
  | None => ∅
  end.

(** [FD_ISSET(conn->fd, &fds)] *)
Definition FD_ISSET (fd : Z) (fds : gset Z) : bool := bool_decide (fd ∈ fds).

(** The wait phase after a successful [select]: the sets now hold the
    descriptors that were asked for and are ready. *)
Definition fire_wakers (conn : conn_data) (fds_read fds_write : gset Z)
  : conn_data * list event :=
  let '(conn1, tr1) :=
    if FD_ISSET (fd conn) fds_read then
      ({| fd := fd conn; read_waker := None; write_waker := write_waker conn |},
       [EvWakerWake (read_waker conn)])
    else (conn, []) in
  let '(conn2, tr2) :=
    if FD_ISSET (fd conn1) fds_write then
      ({| fd := fd conn1; read_waker := read_waker conn1; write_waker := None |},
       [EvWakerWake (write_waker conn1)])
    else (conn1, []) in
  (conn2, tr1 ++ tr2).

Section Loop.
Context `{fluxio_h}.

(** One poll of the executor with what follows it, or one return of
    [select] with what follows it.  An answer to a call the program is not
    standing at is dropped. *)
Definition step (prog : program) (s : state) (a : answer) : state * list event :=
  match st_pc s, a with
  | Drain, APoll cbs task =>
      let '(conn1, supply1, tr_cb) := run_callbacks cbs (st_conn s) (st_supply s) in
      match task with
      | None =>
          (* if (!task) break;  then the interest sets and select *)
          let fds_read := fd_set_of conn1 (read_waker conn1) in
          let fds_write := fd_set_of conn1 (write_waker conn1) in
          ({| st_pc := Wait fds_read fds_write; st_conn := conn1; st_supply := supply1 |},
           tr_cb ++ [EvExecutorPoll None; EvSelect (fd conn1 + 1) fds_read fds_write])
      | Some t =>
          let '(ctl, conn2, tr_d) := dispatch prog conn1 t in
          let pc' := match ctl with
                     | Break => Drain
                     | Return status => Exited status
                     | AssertFailed => Aborted
                     end in
          ({| st_pc := pc'; st_conn := conn2; st_supply := supply1 |},
           tr_cb ++ EvExecutorPoll (Some (t_userdata t, t_type t)) :: tr_d)
      end
  | Wait fds_read fds_write, ASelect sel_ret ready_read ready_write =>
      if sel_ret <? 0 then
        ({| st_pc := Exited 1; st_conn := st_conn s; st_supply := st_supply s |},
         [EvPrintf "select() error\n"])
      else
        let '(conn', tr) :=
          fire_wakers (st_conn s) (fds_read ∩ ready_read) (fds_write ∩ ready_write) in
        ({| st_pc := Drain; st_conn := conn'; st_supply := st_supply s |}, tr)
  | _, _ => (s, [])
  end.

Fixpoint run (prog : program) (s : state) (answers : list answer) : state * list event :=
  match answers with
  | [] => (s, [])
  | a :: rest =>
      let '(s1, tr1) := step prog s a in
      let '(s2, tr2) := run prog s1 rest in
      (s2, tr1 ++ tr2)
  end.
End Loop.

(** ** [connect_to] and the set-up part of [main] *)

(** What [socket] and [connect] hand back for one address of the list
    [getaddrinfo] produced. *)
Record addr_answer := {
  ai_socket : Z;
  ai_connect : Z
}.

(** The [for (rp = result; rp != NULL; rp = rp->ai_next)] loop: the socket
    it ends with, or [None] when [rp] ran to [NULL]. *)
Fixpoint try_addresses (rp : list addr_answer) : option Z * list event :=
  match rp with
  | [] => (None, [])
  | a :: rest =>
      if ai_socket a =? -1 then
        let '(r, tr) := try_addresses rest in (r, EvCall "socket" :: tr)
      else if negb (ai_connect a =? -1) then
        (Some (ai_socket a), [EvCall "socket"; EvCall "connect"])
      else
        let '(r, tr) := try_addresses rest in
        (r, EvCall "socket" :: EvCall "connect" :: EvCall "close" :: tr)
  end.

Definition connect_to (gai_ret : Z) (result : list addr_answer) : Z * list event :=
  if negb (gai_ret =? 0) then
    (-1, [EvCall "getaddrinfo"; EvPrintf "dns failed for %s\n"])
  else
    let '(r, tr) := try_addresses result in
    match r with
    | None =>
        (-1, EvCall "getaddrinfo" :: tr ++ [EvCall "freeaddrinfo"; EvPrintf "connect failed for %s\n"])
    | Some sfd =>
        (sfd, EvCall "getaddrinfo" :: tr ++ [EvCall "freeaddrinfo"])
    end.

(** What the outside hands back during set-up. *)
Record setup_answer := {
  file_given : bool;       (* upload.c: argc > 1 *)
  open_ret : Z;            (* upload.c: open(file, O_RDONLY) *)
  gai_ret : Z;             (* getaddrinfo(...) *)
  gai_result : list addr_answer;
  fcntl_ret : Z            (* fcntl(fd, F_SETFL, O_NONBLOCK) *)
}.

Definition exited (status : Z) : state :=
  {| st_pc := Exited status;
     st_conn := {| fd := -1; read_waker := None; write_waker := None |};
     st_supply := 0 |}.

(** From the connected socket to the first push: the connection record, the
    I/O object, the executor and the handshake task. *)
Definition hookup (prog : program) (sock : Z) : state * list event :=
  ({| st_pc := Drain;
      st_conn := {| fd := sock; read_waker := None; write_waker := None |};
      st_supply := 0 |},
   [EvCall "malloc";
    EvCall "fluxio_io_new"; EvCall "fluxio_io_set_userdata";
    EvCall "fluxio_io_set_read"; EvCall "fluxio_io_set_write";
    EvCall "fluxio_version"; EvPrintf "http handshake (fluxio v%s) ...\n";
    EvCall "fluxio_executor_new";
    EvCall "fluxio_clientconn_options_new"; EvCall "fluxio_clientconn_options_exec"]
   ++ match prog with
      | Client => []
      | Upload => [EvCall "fluxio_clientconn_options_headers_raw"]
      end
   ++ [EvCall "fluxio_clientconn_handshake"; EvSetUserdata EXAMPLE_HANDSHAKE;
       EvCall "fluxio_executor_push"]).

(** [connect_to], the check of its result and [fcntl], as both programs
    have them; [greet] and [connected] are the two messages. *)
Definition connect_and_hookup (prog : program) (a : setup_answer)
    (greet connected : string) (more : list event) : state * list event :=
  let '(sock, tr_c) := connect_to (gai_ret a) (gai_result a) in
  if sock <? 0 then (exited 1, EvPrintf greet :: tr_c)
  else if negb (fcntl_ret a =? 0) then
    (exited 1,
     EvPrintf greet :: tr_c ++
     [EvPrintf connected; EvCall "fcntl";
      EvPrintf "failed to set socket to non-blocking\n"])
  else
    let '(s, tr_h) := hookup prog sock in
    (s, EvPrintf greet :: tr_c ++ [EvPrintf connected; EvCall "fcntl"] ++ more ++ tr_h).

Definition setup (prog : program) (a : setup_answer) : state * list event :=
  match prog with
  | Client =>
      connect_and_hookup Client a
        "connecting to port %s on %s...\n" "connected to %s, now get %s\n" []
  | Upload =>
      if negb (file_given a) then
        (exited 1, [EvPrintf "Pass a file path as the first argument.\n"])
      else if open_ret a <? 0 then
        (exited 1,
         [EvCall "open"; EvCall "strerror"; EvPrintf "error opening file to upload: %s\n"])
      else
        let '(s, tr) :=
          connect_and_hookup Upload a
            "connecting to port %s on %s...\n" "connected to %s, now upload to %s\n"
            [EvCall "malloc"] in
        (s, EvCall "open" :: tr)
  end.

Section Main.
Context `{fluxio_h}.

(** [main] of either program, against the answers of the outside. *)
Definition main (prog : program) (a : setup_answer) (answers : list answer)
  : state * list event :=
  let '(s0, tr0) := setup prog a in
  let '(s1, tr1) := run prog s0 answers in
  (s1, tr0 ++ tr1).
End Main.

(** ** The upload body producer (upload.c) *)

(** [struct upload_body]; [upload_buf] is what the scratch buffer holds. *)
Record upload_body := {
  upload_fd : Z;
  upload_buf : list Byte.byte;
  upload_len : nat
}.

(** Modelled from the spec: [fluxio_buf_copy] does "copy those bytes into a
    new chunk object owned by the engine". *)
Definition fluxio_buf_copy (buf : list Byte.byte) (len : Z) : list Byte.byte :=
  take (Z.to_nat len) buf.

(** What one call of the producer hands back: the [int] it returns, [*chunk]
    ([None] is [NULL]), the upload state and the source after it, the calls
    it made. *)
Record poll_result {OS : Type} := {
  poll_ret : Z;
  poll_chunk : option (list Byte.byte);
  poll_upload : upload_body;
  poll_os : OS;
  poll_trace : list event
}.
Arguments poll_result : clear implicits.

Section UploadBody.
Context `{fluxio_h}.
Context {OS : Type}.

(** [read(fd, buf, count)] of the operating system: the [ssize_t] it
    returns, the bytes it stored at the front of [buf], the source after
    it. *)
Variable sys_read : OS → Z → nat → Z * list Byte.byte * OS.

(** [poll_req_upload]; [chunk] is [*chunk] on entry. *)
Definition poll_req_upload (os : OS) (upload : upload_body)
    (chunk : option (list Byte.byte)) : poll_result OS :=
  let '(res, stored, os') := sys_read os (upload_fd upload) (upload_len upload) in
  let upload' :=
    {| upload_fd := upload_fd upload;
       upload_buf := stored ++ drop (length stored) (upload_buf upload);
       upload_len := upload_len upload |} in
  if 0 <? res then
    {| poll_ret := FLUXIO_POLL_READY;
       poll_chunk := Some (fluxio_buf_copy (upload_buf upload') res);
       poll_upload := upload'; poll_os := os';
       poll_trace := [EvCall "read"; EvCall "fluxio_buf_copy"] |}
  else if res =? 0 then
    {| poll_ret := FLUXIO_POLL_READY;
       poll_chunk := None;
       poll_upload := upload'; poll_os := os';
       poll_trace := [EvCall "read"] |}
  else
    {| poll_ret := FLUXIO_POLL_ERROR;
       poll_chunk := chunk;
       poll_upload := upload'; poll_os := os';
       poll_trace := [EvCall "read"; EvPrintf "error reading upload file: %d"] |}.

(** Modelled from the spec: the engine's side of the producer contract,
    "polled repeatedly by the engine; each poll yields a chunk, an
    end-of-stream marker, or an error", and after end-of-stream "the engine
    must not poll this producer again".  The results of the polls, in
    order. *)
Fixpoint engine_pull_body (fuel : nat) (os : OS) (upload : upload_body)
  : list (poll_result OS) :=
  match fuel with
  | O => []
  | S fuel' =>
      let r := poll_req_upload os upload None in
      if poll_ret r =? FLUXIO_POLL_READY then
        match poll_chunk r with
        | Some _ => r :: engine_pull_body fuel' (poll_os r) (poll_upload r)
        | None => [r]
        end
      else [r]
  end.
End UploadBody.

(** A regular file opened for reading: its bytes and the file offset. *)
Record file := {
  file_data : list Byte.byte;
  file_pos : nat
}.

(** [read] on a regular file: as many bytes as asked for, or as many as are
    left before end-of-file. *)
Definition file_read (f : file) (fd : Z) (count : nat) : Z * list Byte.byte * file :=
  let got := take count (drop (file_pos f) (file_data f)) in
  (Z.of_nat (length got), got,
   {| file_data := file_data f; file_pos := (file_pos f + length got)%nat |}).

(** A source whose reads may come short or fail: its bytes, the offset, and
    for each read to come what the operating system does; a negative entry
    makes the read fail, an entry [z >= 0] lets it deliver at most
    [max 1 z] bytes.  Once the script is used up the source reads like a
    regular file. *)
Record source := {
  src_data : list Byte.byte;
  src_pos : nat;
  src_script : list Z
}.

(** How many bytes the next [read] of [count] bytes may deliver at most. *)
Definition read_limit (script : list Z) (count : nat) : nat :=
  match script with
  | [] => count
  | z :: _ => count `min` (1 `max` Z.to_nat z)
  end.

(** [read] on such a source: -1 when it fails; else the bytes it delivers,
    none only at end-of-file. *)
Definition source_read (s : source) (fd : Z) (count : nat) : Z * list Byte.byte * source :=
  match src_script s with
  | z :: rest =>
      if z <? 0 then
        (-1, [], {| src_data := src_data s; src_pos := src_pos s; src_script := rest |})
      else
        let got := take (read_limit (src_script s) count) (drop (src_pos s) (src_data s)) in
        (Z.of_nat (length got), got,
         {| src_data := src_data s; src_pos := (src_pos s + length got)%nat;
            src_script := rest |})
  | [] =>
      let got := take count (drop (src_pos s) (src_data s)) in
      (Z.of_nat (length got), got,
       {| src_data := src_data s; src_pos := (src_pos s + length got)%nat;
          src_script := [] |})
  end.

(** The chunks the polls handed over, in order. *)
Definition chunks_of {OS : Type} (rs : list (poll_result OS)) : list (list Byte.byte) :=
  omap poll_chunk rs.

(** [main]: [upload.fd = open(file, O_RDONLY); upload.len = 8192;
    upload.buf = malloc(upload.len);] *)
Definition upload_init (fd : Z) (garbage : list Byte.byte) : upload_body :=
  {| upload_fd := fd; upload_buf := garbage; upload_len := Z.to_nat 8192 |}.

(** ** Live waker handles, read off a trace *)

(** Modelled from the spec: a handle is live from [fluxio_context_waker] to
    [fluxio_waker_free] or to [fluxio_waker_wake] ("fire is a one-shot
    operation that, after firing, the holder must treat as consumed").  The
    live handles after one more call, each with the direction it was
    registered for. *)
Definition track (live : gmap nat direction) (e : event) : gmap nat direction :=
  match e with
  | EvContextWaker d w => <[w := d]> live
  | EvWakerFree w => delete w live
  | EvWakerWake (Some w) => delete w live
  | _ => live
  end.

Definition live_from (live : gmap nat direction) (tr : list event) : gmap nat direction :=
  foldl track live tr.

Definition live_wakers (tr : list event) : gmap nat direction :=
  live_from ∅ tr.

(** At most one live handle per direction. *)
Definition at_most_one (live : gmap nat direction) : Prop :=
  ∀ d w1 w2, live !! w1 = Some d → live !! w2 = Some d → w1 = w2.

(** What has to hold of the live handles [live] when the program makes the
    call [e]: a handle handed out is new and its direction holds none at that
    moment; a handle given back or fired is live. *)
Definition waker_safe (live : gmap nat direction) (e : event) : Prop :=
  match e with
  | EvContextWaker d w => live !! w = None ∧ ∀ w', live !! w' ≠ Some d
  | EvWakerFree w => is_Some (live !! w)
  | EvWakerWake p => ∃ w, p = Some w ∧ is_Some (live !! w)
  | _ => True
  end.

(** [Q] holds at every call of the trace, of the live handles just before
    the call. *)
Definition each_step (Q : gmap nat direction → event → Prop)
    (live : gmap nat direction) (tr : list event) : Prop :=
  ∀ p e, (p ++ [e]) `prefix_of` tr → Q (live_from live p) e.

(** The connection's slots hold exactly the live handles, and the supply is
    beyond all of them. *)
Definition owns (conn : conn_data) (supply : nat) (live : gmap nat direction) : Prop :=
  (∀ w d, live !! w = Some d ↔ slot conn d = Some w) ∧
  (∀ w, is_Some (live !! w) → (w < supply)%nat).

(** Calls that neither hand out nor consume a waker. *)
Definition inert (e : event) : bool :=
  match e with
  | EvContextWaker _ _ | EvWakerFree _ | EvWakerWake _ => false
  | _ => true
  end.

(** Calls that create a task, tag it or push it into the executor. *)
Definition submits (e : event) : bool :=
  match e with
  | EvSetUserdata _ => true
  | EvCall fn =>
      bool_decide (fn ∈ ["fluxio_clientconn_handshake"; "fluxio_clientconn_send";
                         "fluxio_body_foreach"; "fluxio_body_data";
                         "fluxio_executor_push"])
  | _ => false
  end.

(** Calls that release a resource the program holds: a waker, a task, the
    executor, the response body, the connection record or the scratch
    buffer. *)
Definition releases (e : event) : bool :=
  match e with
  | EvWakerFree _ => true
  | EvCall fn =>
      bool_decide (fn ∈ ["fluxio_task_free"; "fluxio_executor_free";
                         "fluxio_body_free"; "free"])
  | _ => false
  end.

Definition is_select (e : event) : bool :=
  match e with EvSelect _ _ _ => true | _ => false end.

(** Every [select] of the trace comes directly after a poll of the executor
    that returned no task. *)
Definition select_follows_empty_poll (tr : list event) : Prop :=
  ∀ pre nfds fds_read fds_write post,
    tr = pre ++ EvSelect nfds fds_read fds_write :: post →
    ∃ pre', pre = pre' ++ [EvExecutorPoll None].

(** Tasks completed since the latest [select], and the number of tasks the
    drain phase before the latest [select] had completed. *)
Definition count_completions (acc : nat * nat) (e : event) : nat * nat :=
  match e with
  | EvExecutorPoll (Some _) => (S acc.1, acc.2)
  | EvSelect _ _ _ => (O, acc.1)
  | _ => acc
  end.

Definition drain_completions (tr : list event) : nat :=
  (foldl count_completions (O, O) tr).2.


(** The calls of [tr], made with the live handles [live], are all safe and
    leave the connection [conn] owning exactly the live handles. *)
Definition safe_to (live : gmap nat direction) (tr : list event)
    (conn : conn_data) (supply : nat) : Prop :=
  each_step waker_safe live tr ∧ owns conn supply (live_from live tr).

(** What holds of a state [s] of the loop against the live handles: the
    connection owns them, and in the wait phase the interest sets are those
    of the two slots. *)
Definition inv (s : state) (live : gmap nat direction) : Prop :=
  owns (st_conn s) (st_supply s) live ∧
  match st_pc s with
  | Wait fds_read fds_write =>
      fds_read = fd_set_of (st_conn s) (read_waker (st_conn s)) ∧
      fds_write = fd_set_of (st_conn s) (write_waker (st_conn s))
  | _ => True
  end.

(** The wakers the wait phase fires when [select] returns with these two
    sets. *)
Definition fired (conn : conn_data) (fds_read fds_write : gset Z) : list event :=
  (if FD_ISSET (fd conn) fds_read then [EvWakerWake (read_waker conn)] else [])
  ++ (if FD_ISSET (fd conn) fds_write then [EvWakerWake (write_waker conn)] else []).

(** In the wait phase the trace so far ends with the poll that returned no
    task and the [select] the program is blocked in. *)
Definition wait_entry (s : state) (tr : list event) : Prop :=
  match st_pc s with
  | Wait fds_read fds_write =>
      ∃ pre, tr = pre ++ [EvExecutorPoll None;
                          EvSelect (fd (st_conn s) + 1) fds_read fds_write]
  | _ => True
  end.



(** The two conditions under which the wait phase would be entered, as the
    specification words them: the drain phase before it completed no task,
    and some direction holds a waker. *)
Definition wait_only_after_idle_drain `{fluxio_h}
    (prog : program) (a : setup_answer) (answers : list answer) : Prop :=
  ∀ fds_read fds_write,
    st_pc (main prog a answers).1 = Wait fds_read fds_write →
    drain_completions (main prog a answers).2 = O.

Definition wait_only_with_live_waker `{fluxio_h}
    (prog : program) (a : setup_answer) (answers : list answer) : Prop :=
  ∀ fds_read fds_write,
    st_pc (main prog a answers).1 = Wait fds_read fds_write →
    is_Some (read_waker (st_conn (main prog a answers).1)) ∨
    is_Some (write_waker (st_conn (main prog a answers).1)).

(** Calls of the function [fn] in a trace. *)
Definition is_call (fn : string) (e : event) : bool :=
  match e with
  | EvCall g => bool_decide (g = fn)
  | _ => false
  end.

Definition count_calls (fn : string) (tr : list event) : nat :=
  length (List.filter (is_call fn) tr).

(** The tags the dispatcher tracks. *)
Definition tracked (userdata : Z) : Prop :=
  userdata = EXAMPLE_HANDSHAKE ∨ userdata = EXAMPLE_SEND ∨ userdata = EXAMPLE_RESP_BODY.

(** A task of a tracked tag was polled and was an error. *)
Definition task_error_surfaced (tr : list event) : Prop :=
  ∃ userdata, tracked userdata ∧
              EvExecutorPoll (Some (userdata, FLUXIO_TASK_ERROR)) ∈ tr.

Definition is_polled_task (e : event) : bool :=
  match e with EvExecutorPoll (Some _) => true | _ => false end.

(** What the specification says of a run in which a task error surfaced:
    no waker is left live and every task that was polled, the failing one
    too, has been freed. *)
Definition error_exit_releases_all `{fluxio_h}
    (prog : program) (a : setup_answer) (answers : list answer) : Prop :=
  task_error_surfaced (main prog a answers).2 →
  live_wakers (main prog a answers).2 = ∅ ∧
  count_calls "fluxio_task_free" (main prog a answers).2 =
    length (List.filter is_polled_task (main prog a answers).2).




(** The message a program prints when a task of a tracked tag is an error. *)
Definition phase_message (userdata : Z) : string :=
  if userdata =? EXAMPLE_HANDSHAKE then "handshake error!\n"
  else if userdata =? EXAMPLE_SEND then "send error!\n"
  else "body error!\n".

(** [ceil(L / B)] *)
Definition ceil_div (L B : nat) : nat := ((L + B - 1) / B)%nat.

(** What the specification says of an upload source of [data] polled
    through the scratch buffer of [upload]: [ceil(L / B)] results with a
    chunk that is not empty, then one end-of-stream result, the chunks
    making up [data]. *)
Definition round_trip_in_ceil_polls `{fluxio_h} {OS : Type}
    (sys_read : OS → Z → nat → Z * list Byte.byte * OS) (os : OS)
    (data : list Byte.byte) (upload : upload_body) (fuel : nat) : Prop :=
  ∃ cs, poll_chunk <$> engine_pull_body sys_read fuel os upload = (Some <$> cs) ++ [None] ∧
        length cs = ceil_div (length data) (upload_len upload) ∧
        Forall (λ c, c ≠ []) cs ∧
        concat cs = data.

(** ** Concrete inputs, for running the model *)

(** One assignment of the constants. *)
Definition example_h : fluxio_h :=
  {| FLUXIO_IO_PENDING := 4294967295;
     FLUXIO_IO_ERROR := 4294967294;
     FLUXIO_POLL_READY := 0;
     FLUXIO_POLL_ERROR := 3;
     EAGAIN := 11 |}.

(** Set-up in which the file opens as descriptor 3 and the first address
    connects on socket 4. *)
Definition setup_ok : setup_answer :=
  {| file_given := true; open_ret := 3; gai_ret := 0;
     gai_result := [ {| ai_socket := 4; ai_connect := 0 |} ];
     fcntl_ret := 0 |}.

Definition task (userdata : Z) (type : fluxio_task_return_type) : task_answer :=
  {| t_userdata := userdata; t_type := type; t_value_null := false;
     t_set_method := 0; t_set_uri := 0; t_headers := 2;
     t_len_first := true; t_write_ret := 0 |}.

(** A connection on socket 4 with both slots empty. *)
Definition conn4 : conn_data :=
  {| fd := 4; read_waker := None; write_waker := None |}.

(** A read that would block. *)
Definition read_blocks : io_call := CbRead 8192 (-1) 11.

(** A write that fails with [ECONNRESET]. *)
Definition write_fails : io_call := CbWrite 8192 (-1) 104.

(** The file [abcde] (five bytes). *)
Definition abcde : list Byte.byte :=
  [Byte.x61; Byte.x62; Byte.x63; Byte.x64; Byte.x65].

(** A complete exchange on the connection of [setup_ok]: the handshake
    blocks on a read, [select] finds the socket readable, then the
    handshake, the send, a background task and the response body
    complete. *)
Definition full_exchange : list answer :=
  [APoll [read_blocks] None;
   ASelect 1 {[ 4 ]} ∅;
   APoll [CbRead 8192 100 0] (Some (task EXAMPLE_HANDSHAKE FLUXIO_TASK_CLIENTCONN));
   APoll [] (Some (task EXAMPLE_SEND FLUXIO_TASK_RESPONSE));
   APoll [] (Some (task EXAMPLE_NOT_SET FLUXIO_TASK_EMPTY));
   APoll [] (Some (task EXAMPLE_RESP_BODY FLUXIO_TASK_EMPTY))].



(** ** Further definitions *)

(** An address on which [socket] and then [connect] succeed. *)
Definition connects (a : addr_answer) : bool :=
  negb (ai_socket a =? -1) && negb (ai_connect a =? -1).

(** The handle a call hands out, and the handle a call consumes. *)
Definition issued_handle (e : event) : option nat :=
  match e with EvContextWaker _ w => Some w | _ => None end.

Definition consumed_handle (e : event) : option nat :=
  match e with
  | EvWakerFree w => Some w
  | EvWakerWake (Some w) => Some w
  | _ => None
  end.

(** The handles handed out in a trace, and the handles freed or fired in
    it, in order. *)
Definition issued (tr : list event) : list nat := omap issued_handle tr.

Definition consumed (tr : list event) : list nat := omap consumed_handle tr.

(** Calls the dispatcher and the set-up make: engine and library calls by
    name, messages, tags, and the release of a waker. *)
Definition is_plain (e : event) : bool :=
  match e with
  | EvPrintf _ | EvCall _ | EvSetUserdata _ | EvWakerFree _ => true
  | _ => false
  end.

(** Tasks a trace shows as polled. *)
Definition polled_tasks (tr : list event) : nat :=
  length (List.filter is_polled_task tr).

(** A call that is neither a call of [fn] nor a poll that returned a task. *)
Definition neither (fn : string) (e : event) : bool :=
  negb (is_call fn e) && negb (is_polled_task e).

(** The program is in its loop or has returned 0: it has not failed. *)
Definition not_failed (p : pc) : bool :=
  match p with
  | Drain | Wait _ _ => true
  | Exited status => status =? 0
  | Aborted => false
  end.

(** The task an answer carries, if any, has a tag of [example_id]. *)
Definition tag_of_enum (a : answer) : Prop :=
  match a with
  | APoll _ (Some t) => 0 ≤ t_userdata t ≤ 3
  | _ => True
  end.

(** 1 if the program has returned 0, else 0. *)
Definition returned_0 (p : pc) : nat :=
  match p with
  | Exited status => if status =? 0 then 1%nat else O
  | _ => O
  end.

(** What the latest poll of the executor in a trace returned; [before] if
    the trace has no poll. *)
Fixpoint last_poll_from (before : option (option (Z * fluxio_task_return_type)))
    (tr : list event) : option (option (Z * fluxio_task_return_type)) :=
  match tr with
  | [] => before
  | EvExecutorPoll r :: tr' => last_poll_from (Some r) tr'
  | _ :: tr' => last_poll_from before tr'
  end.

Definition last_poll (tr : list event) : option (option (Z * fluxio_task_return_type)) :=
  last_poll_from None tr.

(** The completion after which a program tags a new task with [tag]: the
    handshake task is tagged before the first poll; a send task after a
    handshake task completed with a client connection; a response-body task
    after a send task completed with a response and, in upload.c, after a
    response-body task completed with a chunk.  Which task completed is
    read off its userdata as the [switch] reads it, converted to
    [example_id]. *)
Definition entitles (prog : program)
    (before : option (option (Z * fluxio_task_return_type))) (tag : Z) : Prop :=
  match before with
  | None => tag = EXAMPLE_HANDSHAKE
  | Some (Some (userdata, type)) =>
      (example_id_of userdata = EXAMPLE_HANDSHAKE ∧ type = FLUXIO_TASK_CLIENTCONN ∧
       tag = EXAMPLE_SEND) ∨
      (example_id_of userdata = EXAMPLE_SEND ∧ type = FLUXIO_TASK_RESPONSE ∧
       tag = EXAMPLE_RESP_BODY) ∨
      (prog = Upload ∧ example_id_of userdata = EXAMPLE_RESP_BODY ∧
       type = FLUXIO_TASK_BUF ∧
       tag = EXAMPLE_RESP_BODY)
  | Some None => False
  end.

(** Every tagging in the trace is entitled by the poll before it. *)
Fixpoint chain_from (prog : program)
    (before : option (option (Z * fluxio_task_return_type))) (tr : list event) : Prop :=
  match tr with
  | [] => True
  | EvSetUserdata tag :: tr' => entitles prog before tag ∧ chain_from prog before tr'
  | EvExecutorPoll r :: tr' => chain_from prog (Some r) tr'
  | _ :: tr' => chain_from prog before tr'
  end.

(** The tags set in a trace, in order. *)
Definition tags (tr : list event) : list Z :=
  omap (λ e, match e with EvSetUserdata tag => Some tag | _ => None end) tr.

(** Calls of the set-up: library and engine calls, messages, and the
    tagging of the handshake task. *)
Definition is_setup_call (e : event) : bool :=
  match e with
  | EvPrintf _ | EvCall _ => true
  | EvSetUserdata tag => tag =? EXAMPLE_HANDSHAKE
  | _ => false
  end.

(** The handle the callback of direction [d] obtained, if the call is
    one. *)
Definition handle_for (d : direction) (e : event) : option nat :=
  match e with
  | EvContextWaker d' w => if decide (d' = d) then Some w else None
  | _ => None
  end.

(** The handles the waker slots of a connection hold. *)
Definition held (conn : conn_data) : list nat :=
  option_list (read_waker conn) ++ option_list (write_waker conn).

(** A [read] or [write] on the socket. *)
Definition is_transfer (e : event) : bool :=
  match e with
  | EvRead _ _ | EvWrite _ _ => true
  | _ => false
  end.

(** What set-up needs from the outside to reach the loop: in upload.c a
    file argument that [open] accepts; then an address list, an address on
    which [socket] and [connect] succeed, the socket of the first such
    address not negative, and [fcntl] returning 0. *)
Definition reaches_loop (prog : program) (a : setup_answer) : bool :=
  match prog with
  | Client => true
  | Upload => file_given a && (0 <=? open_ret a)
  end
  && (gai_ret a =? 0)
  && match List.find connects (gai_result a) with
     | Some x => 0 <=? ai_socket x
     | None => false
     end
  && (fcntl_ret a =? 0).

(** A message, or a call that neither enters the engine nor allocates. *)
Definition engine_free (e : event) : bool :=
  match e with
  | EvPrintf _ => true
  | EvCall fn => negb (String.prefix "fluxio_" fn) && negb (bool_decide (fn = "malloc"))
  | _ => false
  end.

(** The completion types under which no [assert] of the dispatcher fails:
    for the three tracked tags an error, or a client connection for the
    handshake, a response for the send, an empty result (in upload.c also a
    chunk) for the response body; anything for another tag.  The tag is the
    userdata converted to [example_id]. *)
Definition expected (prog : program) (userdata : Z) (type : fluxio_task_return_type)
  : bool :=
  if example_id_of userdata =? EXAMPLE_HANDSHAKE then is_error type || is_clientconn type
  else if example_id_of userdata =? EXAMPLE_SEND then is_error type || is_response type
  else if example_id_of userdata =? EXAMPLE_RESP_BODY then
    is_error type || is_empty type ||
    match prog with Upload => is_buf type | Client => false end
  else true.

(** A poll that returned a completion of another type. *)
Definition unexpected (prog : program) (e : event) : bool :=
  match e with
  | EvExecutorPoll (Some (userdata, type)) => negb (expected prog userdata type)
  | _ => false
  end.

Definition expected_answer (prog : program) (a : answer) : Prop :=
  match a with
  | APoll _ (Some t) => expected prog (t_userdata t) (t_type t) = true
  | _ => True
  end.

(** Asking a task for its tag or its type. *)
Definition is_task_query (e : event) : bool :=
  is_call "fluxio_task_userdata" e || is_call "fluxio_task_type" e.

(** The trace of a program that stands at [p]: if an [assert] has failed,
    the trace shows one poll with an unexpected completion, the first of
    its kind, and after it only queries of the task; if none has failed,
    the trace shows no such poll. *)
Definition assert_trace (prog : program) (p : pc) (tr : list event) : Prop :=
  match p with
  | Aborted =>
      ∃ pre userdata type post,
        tr = pre ++ EvExecutorPoll (Some (userdata, type)) :: post ∧
        expected prog userdata type = false ∧
        Forall (λ e, unexpected prog e = false) pre ∧
        Forall (λ e, is_task_query e = true) post
  | _ => Forall (λ e, unexpected prog e = false) tr
  end.

(** * Facts *)

(** ** Traces and live handles *)

Lemma live_from_app live t1 t2 :
  live_from live (t1 ++ t2) = live_from (live_from live t1) t2.
Proof. apply foldl_app. Qed.

Lemma each_step_nil Q live : each_step Q live [].
Proof.
  intros p e [k Hk]. destruct p; discriminate.
Qed.

Lemma each_step_cons Q live e tr :
  Q live e → each_step Q (track live e) tr → each_step Q live (e :: tr).
Proof.
  intros Hq Htr p e' [k Hk]. destruct p as [|x p]; simpl in Hk.
  - injection Hk as <- _. exact Hq.
  - injection Hk as <- Hk. simpl. apply Htr. by exists k.
Qed.

Lemma each_step_app Q live t1 t2 :
  each_step Q live t1 → each_step Q (live_from live t1) t2 →
  each_step Q live (t1 ++ t2).
Proof.
  revert live. induction t1 as [|x t1 IH]; intros live H1 H2; simpl; [done|].
  apply each_step_cons.
  - apply (H1 [] x). by exists t1.
  - apply IH; [|done].
    intros p e [k Hk]. apply (H1 (x :: p) e). exists k. simpl. by rewrite Hk.
Qed.

Lemma each_step_inert Q live tr :
  (∀ l e, inert e = true → Q l e) →
  Forall (λ e, inert e = true) tr →
  each_step Q live tr ∧ live_from live tr = live.
Proof.
  intros HQ Htr. revert live. induction Htr as [|e tr He _ IH]; intros live.
  - split; [apply each_step_nil | done].
  - assert (track live e = live) as Ht by (by destruct e).
    destruct (IH live) as [IH1 IH2]. split.
    + apply each_step_cons; [by apply HQ | by rewrite Ht].
    + simpl. unfold live_from in IH2. by rewrite Ht.
Qed.

Lemma waker_safe_inert l e : inert e = true → waker_safe l e.
Proof. by destruct e. Qed.

Lemma at_most_one_track live e :
  at_most_one live → waker_safe live e → at_most_one (track live e).
Proof.
  intros Hone Hsafe. destruct e as [| | w | d w | [w|] | | | | |]; simpl; try done.
  - intros d w1 w2 H1 H2.
    apply lookup_delete_Some in H1 as [_ H1]. apply lookup_delete_Some in H2 as [_ H2].
    eauto.
  - destruct Hsafe as [Hnew Hnone]. intros d' w1 w2 H1 H2.
    apply lookup_insert_Some in H1 as [[<- <-]|[Hn1 H1]];
      apply lookup_insert_Some in H2 as [[<- E]|[Hn2 H2]]; try done.
    + by destruct (Hnone w2).
    + subst. by destruct (Hnone w1).
    + eauto.
  - intros d w1 w2 H1 H2.
    apply lookup_delete_Some in H1 as [_ H1]. apply lookup_delete_Some in H2 as [_ H2].
    eauto.
Qed.

Lemma each_step_at_most_one live tr p :
  at_most_one live → each_step waker_safe live tr → p `prefix_of` tr →
  at_most_one (live_from live p).
Proof.
  intros Hone Hsafe. induction p as [|e p IH] using rev_ind; intros Hp; [done|].
  rewrite live_from_app. simpl. apply at_most_one_track.
  - apply IH. destruct Hp as [k Hk]. exists ([e] ++ k). by rewrite Hk, <- app_assoc.
  - by apply Hsafe.
Qed.

Lemma owns_at_most_one conn supply live : owns conn supply live → at_most_one live.
Proof.
  intros [Hslot _] d w1 w2 H1 H2.
  apply Hslot in H1. apply Hslot in H2. congruence.
Qed.

(** ** Waker slots against live handles *)

Lemma owns_fresh conn supply live : owns conn supply live → live !! supply = None.
Proof.
  intros [_ Hlt]. destruct (live !! supply) eqn:E; [|done].
  assert (supply < supply)%nat by (apply Hlt; eauto). lia.
Qed.

Lemma register_owns conn conn' supply live d :
  owns conn supply live →
  slot conn' d = Some supply →
  (∀ d', d' ≠ d → slot conn' d' = slot conn d') →
  each_step waker_safe live (free_if_set (slot conn d) ++ [EvContextWaker d supply]) ∧
  owns conn' (S supply)
    (live_from live (free_if_set (slot conn d) ++ [EvContextWaker d supply])).
Proof.
  intros Howns Hd Hother.
  pose proof (owns_fresh _ _ _ Howns) as Hfresh.
  destruct Howns as [Hslot Hlt].
  set (live1 := live_from live (free_if_set (slot conn d))).
  assert (live1 !! supply = None ∧ (∀ w', live1 !! w' ≠ Some d) ∧
          (∀ w d', d' ≠ d → live1 !! w = Some d' ↔ live !! w = Some d') ∧
          (∀ w, is_Some (live1 !! w) → is_Some (live !! w)) ∧
          each_step waker_safe live (free_if_set (slot conn d))) as (F1 & F2 & F3 & F4 & F5).
  { subst live1. destruct (slot conn d) as [old|] eqn:Eold; simpl.
    - apply Hslot in Eold as Hold. repeat split.
      + rewrite lookup_delete_None. by right.
      + intros w' Hw'. apply lookup_delete_Some in Hw' as [Hne Hw'].
        apply Hslot in Hw'. congruence.
      + intros Hw. by apply lookup_delete_Some in Hw as [_ Hw].
      + intros Hw. apply lookup_delete_Some. split; [|done]. intros ->. congruence.
      + intros w Hw. destruct Hw as [x Hw]. apply lookup_delete_Some in Hw as [_ Hw]. eauto.
      + apply each_step_cons; [simpl; eauto | apply each_step_nil].
    - repeat split; try done.
      + intros w' Hw'. apply Hslot in Hw'. congruence.
      + apply each_step_nil. }
  split.
  - apply each_step_app; [done|]. apply each_step_cons; [|apply each_step_nil].
    by split.
  - rewrite live_from_app. fold live1. simpl. split.
    + intros w d'. rewrite lookup_insert_Some. split.
      * intros [[<- <-]|[Hne Hw]]; [done|].
        destruct (decide (d' = d)) as [->|Hdd]; [by destruct (F2 w)|].
        rewrite Hother by done. apply Hslot. by apply F3.
      * intros Hw. destruct (decide (d' = d)) as [->|Hdd].
        -- left. split; congruence.
        -- right. rewrite Hother in Hw by done. apply Hslot in Hw as Hl. split.
           ++ intros <-. congruence.
           ++ by apply F3.
    + intros w [x Hw]. apply lookup_insert_Some in Hw as [[<- _]|[_ Hw]]; [lia|].
      assert (w < supply)%nat by (apply Hlt, F4; eauto). lia.
Qed.

Lemma clear_owns conn conn' supply live d w :
  owns conn supply live →
  slot conn d = Some w →
  slot conn' d = None →
  (∀ d', d' ≠ d → slot conn' d' = slot conn d') →
  is_Some (live !! w) ∧ owns conn' supply (delete w live).
Proof.
  intros [Hslot Hlt] Hw Hnone Hother.
  apply Hslot in Hw as Hl. split; [eauto|]. split.
  - intros w' d'. rewrite lookup_delete_Some. split.
    + intros [Hne Hw']. destruct (decide (d' = d)) as [->|Hdd].
      * apply Hslot in Hw'. congruence.
      * rewrite Hother by done. by apply Hslot.
    + intros Hw'. destruct (decide (d' = d)) as [->|Hdd]; [congruence|].
      rewrite Hother in Hw' by done. apply Hslot in Hw'. split; [|done].
      intros <-. congruence.
  - intros w' [x Hw']. apply lookup_delete_Some in Hw' as [_ Hw']. apply Hlt. eauto.
Qed.

(** ** The I/O adapter *)

Section AdapterFacts.
Context `{fluxio_h}.

Lemma call_cb_safe conn supply live c :
  owns conn supply live →
  each_step waker_safe live (cb_trace (call_cb conn supply c)) ∧
  owns (cb_conn (call_cb conn supply c)) (cb_supply (call_cb conn supply c))
    (live_from live (cb_trace (call_cb conn supply c))).
Proof.
  intros Howns.
  destruct c as [n ret errno|n ret errno]; simpl;
    [unfold read_cb | unfold write_cb];
    destruct (0 <=? ret); simpl;
    try (split; [apply each_step_cons; [done | apply each_step_nil] | done]);
    destruct (negb (errno =? EAGAIN)); simpl;
    try (split; [apply each_step_cons; [done | apply each_step_nil] | done]).
  - destruct (register_owns conn
      {| fd := fd conn; read_waker := Some supply; write_waker := write_waker conn |}
      supply live Rd Howns) as [Hs Ho]; [done | by intros [] | ].
    split; [by apply each_step_cons | exact Ho].
  - destruct (register_owns conn
      {| fd := fd conn; read_waker := read_waker conn; write_waker := Some supply |}
      supply live Wr Howns) as [Hs Ho]; [done | by intros [] | ].
    split; [by apply each_step_cons | exact Ho].
Qed.

Lemma run_callbacks_safe cbs conn supply live conn' supply' tr :
  owns conn supply live →
  run_callbacks cbs conn supply = (conn', supply', tr) →
  each_step waker_safe live tr ∧ owns conn' supply' (live_from live tr) ∧
  fd conn' = fd conn.
Proof.
  revert conn supply live conn' supply' tr.
  induction cbs as [|c cbs IH]; intros conn supply live conn' supply' tr Howns Hrun;
    simpl in Hrun.
  - injection Hrun as <- <- <-. split; [apply each_step_nil | done].
  - destruct (run_callbacks cbs _ _) as [[c1 s1] t1] eqn:E.
    injection Hrun as <- <- <-.
    destruct (call_cb_safe conn supply live c Howns) as [Hs Ho].
    destruct (IH _ _ _ _ _ _ Ho E) as (Hs' & Ho' & Hfd).
    split; [by apply each_step_app|]. split; [by rewrite live_from_app|].
    rewrite Hfd. clear.
    destruct c as [n ret errno|n ret errno]; simpl;
      [unfold read_cb | unfold write_cb];
      destruct (0 <=? ret); simpl; try done; by destruct (negb (errno =? EAGAIN)).
Qed.

Lemma owns_initial sock supply :
  owns {| fd := sock; read_waker := None; write_waker := None |} supply ∅.
Proof.
  split.
  - intros w d. rewrite lookup_empty. by destruct d.
  - intros w [x Hx]. by rewrite lookup_empty in Hx.
Qed.

(** C3: a transfer of zero or more bytes returns the count and leaves the
    connection alone; a failure other than would-block returns
    [FLUXIO_IO_ERROR] after the one transfer attempt; a would-block stores
    the handle the poll context hands out in the slot of the callback's
    direction and returns [FLUXIO_IO_PENDING]. *)
Theorem io_callback_contract (conn : conn_data) (supply : nat) (buf_len ret errno : Z) :
  let r := read_cb conn supply buf_len ret errno in
  let w := write_cb conn supply buf_len ret errno in
  (0 ≤ ret →
     (cb_ret r = ret ∧ cb_conn r = conn ∧ cb_trace r = [EvRead (fd conn) buf_len]) ∧
     (cb_ret w = ret ∧ cb_conn w = conn ∧ cb_trace w = [EvWrite (fd conn) buf_len])) ∧
  (ret < 0 → errno ≠ EAGAIN →
     (cb_ret r = FLUXIO_IO_ERROR ∧ cb_conn r = conn ∧
      cb_trace r = [EvRead (fd conn) buf_len]) ∧
     (cb_ret w = FLUXIO_IO_ERROR ∧ cb_conn w = conn ∧
      cb_trace w = [EvWrite (fd conn) buf_len])) ∧
  (ret < 0 → errno = EAGAIN →
     (cb_ret r = FLUXIO_IO_PENDING ∧
      read_waker (cb_conn r) = Some (fluxio_context_waker supply).1 ∧
      write_waker (cb_conn r) = write_waker conn ∧
      cb_trace r = EvRead (fd conn) buf_len :: free_if_set (read_waker conn)
                     ++ [EvContextWaker Rd (fluxio_context_waker supply).1]) ∧
     (cb_ret w = FLUXIO_IO_PENDING ∧
      write_waker (cb_conn w) = Some (fluxio_context_waker supply).1 ∧
      read_waker (cb_conn w) = read_waker conn ∧
      cb_trace w = EvWrite (fd conn) buf_len :: free_if_set (write_waker conn)
                     ++ [EvContextWaker Wr (fluxio_context_waker supply).1])).
Proof.
  intros r w. subst r w. unfold read_cb, write_cb.
  destruct (Z.leb_spec 0 ret) as [Hret|Hret];
    [|destruct (Z.eqb_spec errno EAGAIN) as [Herr|Herr]]; simpl;
    repeat split; intros; try lia; try done.
Qed.

(** C1: through any sequence of callback invocations on a new connection,
    at every moment of the trace each direction has at most one live waker
    handle, and at the moment a handle is handed out for a direction no
    handle of that direction is live (the previous one was freed first).  At
    the end the live handles are exactly those in the two slots. *)
Theorem one_live_waker_per_direction (cbs : list io_call) (sock : Z) :
  let r := run_callbacks cbs {| fd := sock; read_waker := None; write_waker := None |} 0 in
  (∀ p, p `prefix_of` r.2 → at_most_one (live_wakers p)) ∧
  (∀ p d w, (p ++ [EvContextWaker d w]) `prefix_of` r.2 →
     ∀ w', live_wakers p !! w' ≠ Some d) ∧
  (∀ w d, live_wakers r.2 !! w = Some d ↔ slot r.1.1 d = Some w).
Proof.
  intros r. subst r.
  destruct (run_callbacks _ _ _) as [[conn supply] tr] eqn:E. simpl.
  destruct (run_callbacks_safe _ _ _ ∅ _ _ _ (owns_initial sock 0) E) as (Hs & Ho & _).
  split; [|split].
  - intros p Hp. by apply (each_step_at_most_one ∅ tr).
  - intros p d w Hp. by destruct (Hs p _ Hp).
  - apply Ho.
Qed.
End AdapterFacts.

(** A transfer of 5 bytes, a write that fails with [ECONNRESET], a read that
    would block. *)
Lemma io_callback_contract_witness :
  cb_ret (read_cb (H:=example_h) conn4 0 8192 5 0) = 5 ∧
  cb_ret (write_cb (H:=example_h) conn4 0 8192 (-1) 104) = 4294967294 ∧
  read_waker (cb_conn (read_cb (H:=example_h) conn4 0 8192 (-1) 11)) = Some 0%nat.
Proof.
  destruct (io_callback_contract (H:=example_h) conn4 0 8192 5 0) as (A & _ & _).
  destruct (io_callback_contract (H:=example_h) conn4 0 8192 (-1) 104) as (_ & B & _).
  destruct (io_callback_contract (H:=example_h) conn4 0 8192 (-1) 11) as (_ & _ & C).
  split; [|split].
  - apply A. lia.
  - apply B; [lia | discriminate].
  - apply C; [lia | reflexivity].
Defined.

(** Two reads that would block, one after the other: after the second
    handle was handed out only that one is live. *)
Lemma one_live_waker_per_direction_witness :
  at_most_one (live_wakers [EvRead 4 8192; EvContextWaker Rd 0%nat;
                            EvRead 4 8192; EvWakerFree 0%nat;
                            EvContextWaker Rd 1%nat]).
Proof.
  apply (one_live_waker_per_direction (H:=example_h) [read_blocks; read_blocks] 4).
  exists []. reflexivity.
Defined.

(** ** The dispatcher and the loop against live handles *)

Lemma inert_print_each_header n : Forall (λ e, inert e = true) (print_each_header n).
Proof. apply Forall_replicate. done. Qed.

Lemma inert_client_fail b : Forall (λ e, inert e = true) (client_fail b).
Proof. destruct b; simpl; repeat constructor. Qed.

Ltac inert_trace :=
  repeat first
    [ apply Forall_nil_2
    | apply Forall_cons_2; [reflexivity|]
    | apply inert_print_each_header
    | apply inert_client_fail
    | apply Forall_app_2 ].

Lemma each_step_inert_safe live tr :
  Forall (λ e, inert e = true) tr →
  each_step waker_safe live tr ∧ live_from live tr = live.
Proof. apply each_step_inert. intros l e. apply waker_safe_inert. Qed.

Lemma free_conn_data_safe conn supply live :
  owns conn supply live →
  each_step waker_safe live (free_conn_data conn).2 ∧
  owns (free_conn_data conn).1 supply (live_from live (free_conn_data conn).2).
Proof.
  intros Howns. unfold free_conn_data; simpl.
  set (c1 := {| fd := fd conn; read_waker := None; write_waker := write_waker conn |}).
  set (c2 := {| fd := fd conn; read_waker := None; write_waker := None |}).
  assert (each_step waker_safe live (free_if_set (read_waker conn)) ∧
          owns c1 supply (live_from live (free_if_set (read_waker conn)))) as [S1 O1].
  { destruct (read_waker conn) as [w|] eqn:E; simpl.
    - destruct (clear_owns conn c1 supply live Rd w Howns) as [Hl Ho];
        [done | done | by intros [] |].
      split; [apply each_step_cons; [done | apply each_step_nil] | done].
    - split; [apply each_step_nil|].
      destruct Howns as [Hslot Hlt]. split; [|done].
      intros w d. rewrite Hslot. destruct d; simpl; [by rewrite E | done]. }
  assert (each_step waker_safe (live_from live (free_if_set (read_waker conn)))
            (free_if_set (write_waker conn)) ∧
          owns c2 supply
            (live_from (live_from live (free_if_set (read_waker conn)))
               (free_if_set (write_waker conn)))) as [S2 O2].
  { destruct (write_waker conn) as [w|] eqn:E; simpl.
    - destruct (clear_owns c1 c2 supply _ Wr w O1) as [Hl Ho];
        [done | done | by intros [] |].
      split; [apply each_step_cons; [done | apply each_step_nil] | done].
    - split; [apply each_step_nil|].
      destruct O1 as [Hslot Hlt]. split; [|done].
      intros w d. rewrite Hslot. destruct d; simpl; [done|].
      subst c1; simpl. by rewrite ?E. }
  split.
  - apply each_step_app; [done|]. apply each_step_app; [done|].
    apply each_step_cons; [done | apply each_step_nil].
  - by rewrite !live_from_app.
Qed.

Lemma free_conn_data_fd conn : fd (free_conn_data conn).1 = fd conn.
Proof. done. Qed.

Lemma safe_to_nil live conn supply : owns conn supply live → safe_to live [] conn supply.
Proof. intros Ho. split; [apply each_step_nil | done]. Qed.

Lemma safe_to_cons_inert live e tr conn supply :
  inert e = true → safe_to live tr conn supply → safe_to live (e :: tr) conn supply.
Proof.
  intros He [Hs Ho].
  assert (track live e = live) as Ht by (by destruct e).
  split; [apply each_step_cons; [by apply waker_safe_inert | by rewrite Ht]|].
  simpl. unfold live_from in Ho. by rewrite Ht.
Qed.

Lemma safe_to_app_inert live t1 t2 conn supply :
  Forall (λ e, inert e = true) t1 → safe_to live t2 conn supply →
  safe_to live (t1 ++ t2) conn supply.
Proof.
  intros H1. induction H1 as [|e t1 He _ IH]; intros H2; simpl; [done|].
  apply safe_to_cons_inert; auto.
Qed.

Lemma safe_to_snoc_inert live tr e conn supply :
  inert e = true → safe_to live tr conn supply → safe_to live (tr ++ [e]) conn supply.
Proof.
  intros He [Hs Ho].
  assert (track (live_from live tr) e = live_from live tr) as Ht by (by destruct e).
  split.
  - apply each_step_app; [done|].
    apply each_step_cons; [by apply waker_safe_inert | apply each_step_nil].
  - rewrite live_from_app. simpl. by rewrite Ht.
Qed.

Lemma safe_to_inert live tr conn supply :
  Forall (λ e, inert e = true) tr → owns conn supply live → safe_to live tr conn supply.
Proof.
  intros Hi Ho. rewrite <- (app_nil_r tr).
  apply safe_to_app_inert; [done | by apply safe_to_nil].
Qed.

Ltac safe_trace :=
  repeat first
    [ apply safe_to_cons_inert; [reflexivity|]
    | apply safe_to_app_inert; [solve [inert_trace]|] ].

Lemma dispatch_safe prog conn t supply live ctl conn' tr :
  owns conn supply live →
  dispatch prog conn t = (ctl, conn', tr) →
  safe_to live tr conn' supply ∧ fd conn' = fd conn.
Proof.
  intros Howns Hd.
  pose proof (free_conn_data_safe conn supply live Howns) as Hf.
  destruct (free_conn_data conn) as [cf trf] eqn:Ef; simpl in Hf.
  assert (fd cf = fd conn) as Hfd by (by rewrite <- (free_conn_data_fd conn), Ef).
  destruct prog; simpl in Hd; unfold client_dispatch, upload_dispatch in Hd;
    cbv zeta in Hd; rewrite ?Ef in Hd; destruct (t_len_first t);
    repeat match type of Hd with
           | (if ?b then _ else _) = _ => destruct b
           end;
    injection Hd as <- <- <-;
    (split; [|done]); safe_trace;
    first [ by apply safe_to_nil | exact Hf | by apply safe_to_snoc_inert
          | apply safe_to_inert; [inert_trace | done] ].
Qed.

Lemma fd_set_of_elem conn w x :
  x ∈ fd_set_of conn w ↔ x = fd conn ∧ is_Some w.
Proof.
  destruct w; simpl.
  - rewrite elem_of_singleton. split; [eauto | by intros []].
  - split; [set_solver | intros [_ []]; done].
Qed.

Lemma fire_wakers_trace conn fds_read fds_write :
  (fire_wakers conn fds_read fds_write).2 = fired conn fds_read fds_write.
Proof.
  unfold fire_wakers, fired. by repeat (case_match; simplify_eq/=).
Qed.

Lemma fire_wakers_safe conn supply live ready_read ready_write :
  owns conn supply live →
  let fds_read := fd_set_of conn (read_waker conn) ∩ ready_read in
  let fds_write := fd_set_of conn (write_waker conn) ∩ ready_write in
  safe_to live (fire_wakers conn fds_read fds_write).2
    (fire_wakers conn fds_read fds_write).1 supply ∧
  fd (fire_wakers conn fds_read fds_write).1 = fd conn.
Proof.
  intros Howns fr fw. unfold fire_wakers.
  set (c1 := {| fd := fd conn; read_waker := None; write_waker := write_waker conn |}).
  assert (∃ conn1 tr1,
    (if FD_ISSET (fd conn) fr then (c1, [EvWakerWake (read_waker conn)]) else (conn, []))
      = (conn1, tr1) ∧ safe_to live tr1 conn1 supply ∧ fd conn1 = fd conn ∧
      write_waker conn1 = write_waker conn) as (conn1 & tr1 & -> & S1 & Hfd1 & Hw1).
  { unfold FD_ISSET. case_bool_decide as Hin.
    - exists c1, [EvWakerWake (read_waker conn)]. split; [done|].
      apply elem_of_intersection in Hin as [Hin _].
      apply fd_set_of_elem in Hin as [_ [w Hw]].
      destruct (clear_owns conn c1 supply live Rd w Howns) as [Hl Ho];
        [done | done | by intros [] |].
      split; [|done]. split.
      + apply each_step_cons; [|apply each_step_nil]. rewrite Hw. simpl. eauto.
      + simpl. by rewrite Hw.
    - exists conn, []. split; [done|]. split; [by apply safe_to_nil | done]. }
  destruct S1 as [S1 O1].
  set (c2 := {| fd := fd conn1; read_waker := read_waker conn1; write_waker := None |}).
  unfold FD_ISSET. rewrite Hfd1. case_bool_decide as Hin; simpl.
  - apply elem_of_intersection in Hin as [Hin _].
    apply fd_set_of_elem in Hin as [_ [w Hw]]. rewrite <- Hw1 in Hw.
    destruct (clear_owns conn1 c2 supply _ Wr w O1) as [Hl Ho];
      [done | done | by intros [] |].
    split; [|done]. split.
    + apply each_step_app; [done|].
      apply each_step_cons; [|apply each_step_nil]. rewrite Hw. simpl. eauto.
    + rewrite live_from_app. simpl. by rewrite Hw.
  - split; [|done]. rewrite app_nil_r. by split.
Qed.

Section LoopFacts.
Context `{fluxio_h}.

Lemma step_safe prog s a live s' tr :
  inv s live →
  step prog s a = (s', tr) →
  each_step waker_safe live tr ∧ inv s' (live_from live tr).
Proof.
  intros [Howns Hwait] Hstep. unfold step in Hstep.
  destruct (st_pc s) as [|fr fw|status|] eqn:Hpc, a as [cbs task|sel_ret rr rw];
    try (injection Hstep as <- <-; split; [apply each_step_nil|]; split; [done|];
         by rewrite Hpc).
  - (* a poll of the executor *)
    destruct (run_callbacks cbs _ _) as [[conn1 supply1] tr_cb] eqn:Ecb.
    destruct (run_callbacks_safe _ _ _ _ _ _ _ Howns Ecb) as (S1 & O1 & Hfd1).
    destruct task as [t|].
    + destruct (dispatch prog conn1 t) as [[ctl conn2] tr_d] eqn:Ed.
      injection Hstep as <- <-.
      destruct (dispatch_safe _ _ _ _ _ _ _ _ O1 Ed) as [[S2 O2] Hfd2].
      split.
      * apply each_step_app; [done|]. by apply each_step_cons.
      * rewrite live_from_app. split; [done|]. simpl. by destruct ctl.
    + injection Hstep as <- <-. split.
      * apply each_step_app; [done|].
        apply each_step_cons; [done|]. apply each_step_cons; [done|].
        apply each_step_nil.
      * rewrite live_from_app. by split.
  - (* a return of select *)
    destruct Hwait as [-> ->].
    destruct (sel_ret <? 0).
    + injection Hstep as <- <-. split; [|done].
      apply each_step_cons; [done | apply each_step_nil].
    + pose proof (fire_wakers_safe _ _ _ rr rw Howns) as [[S1 O1] Hfd].
      destruct (fire_wakers _ _ _) as [conn' tr'].
      injection Hstep as <- <-. by split.
Qed.

Lemma run_safe prog answers s live s' tr :
  inv s live →
  run prog s answers = (s', tr) →
  each_step waker_safe live tr ∧ inv s' (live_from live tr).
Proof.
  revert s live s' tr. induction answers as [|a rest IH]; intros s live s' tr Hinv Hrun;
    simpl in Hrun.
  - injection Hrun as <- <-. split; [apply each_step_nil | done].
  - destruct (step prog s a) as [s1 t1] eqn:E1.
    destruct (run prog s1 rest) as [s2 t2] eqn:E2.
    injection Hrun as <- <-.
    destruct (step_safe _ _ _ _ _ _ Hinv E1) as [S1 I1].
    destruct (IH _ _ _ _ I1 E2) as [S2 I2].
    split; [by apply each_step_app | by rewrite live_from_app].
Qed.
End LoopFacts.

(** ** Set-up *)

Lemma inert_try_addresses rp : Forall (λ e, inert e = true) (try_addresses rp).2.
Proof.
  induction rp as [|a rp IH]; simpl; [constructor|].
  destruct (try_addresses rp) as [r tr]; simpl in IH.
  repeat case_match; simpl; repeat (constructor; [done|]); done.
Qed.

Lemma inert_connect_to g rp : Forall (λ e, inert e = true) (connect_to g rp).2.
Proof.
  unfold connect_to. pose proof (inert_try_addresses rp) as Hi.
  destruct (try_addresses rp) as [r tr]; simpl in Hi.
  repeat case_match; simpl; inert_trace; done.
Qed.

Lemma setup_shape prog a :
  ∃ pc0 sock tr,
    setup prog a =
      ({| st_pc := pc0;
          st_conn := {| fd := sock; read_waker := None; write_waker := None |};
          st_supply := 0 |}, tr) ∧
    (pc0 = Drain ∨ pc0 = Exited 1) ∧
    Forall (λ e, inert e = true) tr ∧
    Forall (λ e, is_select e = false) tr.
Proof.
  assert (∀ g rp, Forall (λ e, is_select e = false) (connect_to g rp).2) as Hsel.
  { intros g rp. unfold connect_to.
    assert (Forall (λ e, is_select e = false) (try_addresses rp).2) as Hi.
    { induction rp as [|x rp IH]; simpl; [constructor|].
      destruct (try_addresses rp) as [r tr]; simpl in IH.
      repeat case_match; simpl; repeat (constructor; [done|]); done. }
    destruct (try_addresses rp) as [r tr]; simpl in Hi.
    repeat case_match; simpl;
      repeat first [ apply Forall_nil_2 | apply Forall_cons_2; [reflexivity|]
                   | apply Forall_app_2 ]; done. }
  unfold setup, connect_and_hookup, hookup, exited.
  pose proof (inert_connect_to (gai_ret a) (gai_result a)) as Hi.
  specialize (Hsel (gai_ret a) (gai_result a)).
  destruct (connect_to (gai_ret a) (gai_result a)) as [sock tr_c]; simpl in Hi, Hsel.
  destruct prog; repeat case_match; simplify_eq/=;
    eexists _, _, _; (split; [reflexivity|]);
    (split; [auto|]);
    (split;
       repeat first [ apply Forall_nil_2 | apply Forall_cons_2; [reflexivity|]
                    | apply Forall_app_2 ]; done).
Qed.

Section MainFacts.
Context `{fluxio_h}.

Lemma main_safe prog a answers s tr :
  main prog a answers = (s, tr) →
  each_step waker_safe ∅ tr ∧ inv s (live_wakers tr).
Proof.
  unfold main. intros Hmain.
  destruct (setup_shape prog a) as (pc0 & sock & tr0 & E0 & Hpc & Hi & _).
  rewrite E0 in Hmain.
  destruct (run prog _ answers) as [s1 tr1] eqn:E1.
  injection Hmain as <- <-.
  destruct (each_step_inert_safe ∅ tr0 Hi) as [S0 L0].
  assert (inv {| st_pc := pc0;
                 st_conn := {| fd := sock; read_waker := None; write_waker := None |};
                 st_supply := 0 |} (live_from ∅ tr0)) as I0.
  { rewrite L0. split; [apply owns_initial|]. simpl. by destruct Hpc as [-> | ->]. }
  destruct (run_safe _ _ _ _ _ _ I0 E1) as [S1 I1].
  split; [by apply each_step_app|]. unfold live_wakers. by rewrite live_from_app.
Qed.
End MainFacts.

(** ** The shape of traces *)

Lemma noselect_free_if_set w : Forall (λ e, is_select e = false) (free_if_set w).
Proof. destruct w; repeat constructor. Qed.

Lemma noselect_print_each_header n :
  Forall (λ e, is_select e = false) (print_each_header n).
Proof. by apply Forall_replicate. Qed.

Lemma noselect_client_fail b : Forall (λ e, is_select e = false) (client_fail b).
Proof. destruct b; repeat constructor. Qed.

Ltac noselect_trace :=
  repeat first
    [ apply Forall_nil_2
    | apply Forall_cons_2; [reflexivity|]
    | apply noselect_print_each_header
    | apply noselect_client_fail
    | apply noselect_free_if_set
    | apply Forall_app_2 ].

Lemma noselect_dispatch prog conn t :
  Forall (λ e, is_select e = false) (dispatch prog conn t).2.
Proof.
  destruct prog; simpl; unfold client_dispatch, upload_dispatch, free_conn_data;
    repeat case_match; simpl; noselect_trace.
Qed.

Lemma noselect_fired conn fr fw : Forall (λ e, is_select e = false) (fired conn fr fw).
Proof. unfold fired. repeat case_match; noselect_trace. Qed.

Lemma select_follows_nil : select_follows_empty_poll [].
Proof. intros pre n fr fw post Heq. by destruct pre. Qed.

Lemma select_follows_app_noselect tr t :
  select_follows_empty_poll tr →
  Forall (λ e, is_select e = false) t →
  select_follows_empty_poll (tr ++ t).
Proof.
  intros Htr Ht pre n fr fw post Heq.
  apply app_eq_app in Heq as [l [[-> Heq]|[-> Heq]]].
  - destruct l as [|x l]; simpl in Heq.
    + subst t. by apply Forall_cons_1 in Ht as [? _].
    + injection Heq as <- ->. eapply Htr. reflexivity.
  - subst t. apply Forall_app in Ht as [_ Ht]. by apply Forall_cons_1 in Ht as [? _].
Qed.

Lemma select_follows_snoc tr n fr fw :
  select_follows_empty_poll tr →
  select_follows_empty_poll (tr ++ [EvExecutorPoll None; EvSelect n fr fw]).
Proof.
  intros Htr pre n' fr' fw' post Heq.
  destruct post as [|x post _] using rev_ind.
  - change (tr ++ [EvExecutorPoll None; EvSelect n fr fw])
      with (tr ++ [EvExecutorPoll None] ++ [EvSelect n fr fw]) in Heq.
    rewrite app_assoc in Heq. apply app_inj_tail in Heq as [<- _]. eauto.
  - change (tr ++ [EvExecutorPoll None; EvSelect n fr fw])
      with (tr ++ [EvExecutorPoll None] ++ [EvSelect n fr fw]) in Heq.
    rewrite app_assoc, app_comm_cons, (app_assoc pre) in Heq.
    apply app_inj_tail in Heq as [Heq _].
    assert (select_follows_empty_poll (tr ++ [EvExecutorPoll None])) as Htr'.
    { apply select_follows_app_noselect; [done | by repeat constructor]. }
    eapply Htr'. exact Heq.
Qed.

Section ShapeFacts.
Context `{fluxio_h}.

Lemma noselect_call_cb conn supply c :
  Forall (λ e, is_select e = false) (cb_trace (call_cb conn supply c)).
Proof.
  destruct c; simpl; unfold read_cb, write_cb; repeat case_match; simpl; noselect_trace.
Qed.

Lemma noselect_run_callbacks cbs conn supply :
  Forall (λ e, is_select e = false) (run_callbacks cbs conn supply).2.
Proof.
  revert conn supply. induction cbs as [|c cbs IH]; intros conn supply; simpl;
    [constructor|].
  specialize (IH (cb_conn (call_cb conn supply c)) (cb_supply (call_cb conn supply c))).
  destruct (run_callbacks cbs _ _) as [[c1 s1] t1]. simpl in *.
  apply Forall_app_2; [apply noselect_call_cb | done].
Qed.

Lemma step_shape prog s a s' tr tr0 :
  select_follows_empty_poll tr0 → wait_entry s tr0 →
  step prog s a = (s', tr) →
  select_follows_empty_poll (tr0 ++ tr) ∧ wait_entry s' (tr0 ++ tr).
Proof.
  intros Hsel Hwait Hstep. unfold step in Hstep.
  destruct (st_pc s) as [|fr fw|status|] eqn:Hpc, a as [cbs task|sel_ret rr rw];
    try (injection Hstep as <- <-; rewrite app_nil_r; split; [done|];
         unfold wait_entry in *; by rewrite Hpc in *).
  - pose proof (noselect_run_callbacks cbs (st_conn s) (st_supply s)) as Hcb.
    destruct (run_callbacks cbs _ _) as [[conn1 supply1] tr_cb] eqn:Ecb. simpl in Hcb.
    destruct task as [t|].
    + pose proof (noselect_dispatch prog conn1 t) as Hd.
      destruct (dispatch prog conn1 t) as [[ctl conn2] tr_d] eqn:Ed. simpl in Hd.
      injection Hstep as <- <-. split.
      * apply select_follows_app_noselect; [done|].
        apply Forall_app_2; [done|]. by apply Forall_cons_2.
      * unfold wait_entry. simpl. by destruct ctl.
    + injection Hstep as <- <-. rewrite app_assoc. split.
      * apply select_follows_snoc. by apply select_follows_app_noselect.
      * unfold wait_entry. simpl. eauto.
  - destruct (sel_ret <? 0).
    + injection Hstep as <- <-. split; [|done].
      apply select_follows_app_noselect; [done | by repeat constructor].
    + pose proof (fire_wakers_trace (st_conn s) (fr ∩ rr) (fw ∩ rw)) as Ht.
      destruct (fire_wakers _ _ _) as [conn' tr']. simpl in Ht.
      injection Hstep as <- <-. split; [|done].
      apply select_follows_app_noselect; [done|]. rewrite Ht. apply noselect_fired.
Qed.

Lemma run_shape prog answers s s' tr tr0 :
  select_follows_empty_poll tr0 → wait_entry s tr0 →
  run prog s answers = (s', tr) →
  select_follows_empty_poll (tr0 ++ tr) ∧ wait_entry s' (tr0 ++ tr).
Proof.
  revert s s' tr tr0. induction answers as [|a rest IH]; intros s s' tr tr0 H1 H2 Hrun;
    simpl in Hrun.
  - injection Hrun as <- <-. by rewrite app_nil_r.
  - destruct (step prog s a) as [s1 t1] eqn:E1.
    destruct (run prog s1 rest) as [s2 t2] eqn:E2.
    injection Hrun as <- <-.
    destruct (step_shape _ _ _ _ _ _ H1 H2 E1) as [H1' H2'].
    rewrite app_assoc. by apply (IH s1).
Qed.

Lemma main_shape prog a answers s tr :
  main prog a answers = (s, tr) →
  select_follows_empty_poll tr ∧ wait_entry s tr.
Proof.
  unfold main. intros Hmain.
  destruct (setup_shape prog a) as (pc0 & sock & tr0 & E0 & Hpc & _ & Hns).
  rewrite E0 in Hmain.
  destruct (run prog _ answers) as [s1 tr1] eqn:E1.
  injection Hmain as <- <-.
  apply (run_shape _ _ _ _ _ _ (select_follows_app_noselect [] tr0 select_follows_nil Hns))
    in E1; [done|].
  unfold wait_entry. simpl. by destruct Hpc as [-> | ->].
Qed.
End ShapeFacts.

(** ** The executor loop *)

Section LoopTheorems.
Context `{fluxio_h}.

(** C2: in every run of either program, each call of [select] comes
    directly after a poll of the executor that returned no task: the drain
    loop has polled until nothing was ready. *)
Theorem drain_before_wait (prog : program) (a : setup_answer) (answers : list answer)
    (pre post : list event) (nfds : Z) (fds_read fds_write : gset Z) :
  (main prog a answers).2 = pre ++ EvSelect nfds fds_read fds_write :: post →
  ∃ pre', pre = pre' ++ [EvExecutorPoll None].
Proof.
  intros Heq.
  destruct (main prog a answers) as [s tr] eqn:E.
  destruct (main_shape _ _ _ _ _ E) as [Hsel _].
  eapply Hsel. exact Heq.
Qed.

(** C4, amended: the wait phase is entered exactly by a poll of the executor
    that returned no task: in the wait phase the trace ends with that poll
    and the [select], and from the drain phase every such poll leads there,
    whatever was completed before and whatever the slots hold.  The interest
    sets hold the connection's descriptor for exactly the directions whose
    slot holds a live waker. *)
Theorem wait_entry_interest_sets (prog : program) (a : setup_answer)
    (answers : list answer) :
  let s := (main prog a answers).1 in
  let tr := (main prog a answers).2 in
  (∀ fds_read fds_write, st_pc s = Wait fds_read fds_write →
     (∃ pre, tr = pre ++ [EvExecutorPoll None;
                          EvSelect (fd (st_conn s) + 1) fds_read fds_write]) ∧
     (∀ x, x ∈ fds_read ↔
           x = fd (st_conn s) ∧
           ∃ w, read_waker (st_conn s) = Some w ∧ live_wakers tr !! w = Some Rd) ∧
     (∀ x, x ∈ fds_write ↔
           x = fd (st_conn s) ∧
           ∃ w, write_waker (st_conn s) = Some w ∧ live_wakers tr !! w = Some Wr)) ∧
  (∀ cbs, st_pc s = Drain →
     ∃ fds_read fds_write, st_pc (step prog s (APoll cbs None)).1 = Wait fds_read fds_write).
Proof.
  intros s tr. subst s tr.
  destruct (main prog a answers) as [s tr] eqn:E. simpl in *.
  split.
  - intros fds_read fds_write Hpc.
    destruct (main_shape _ _ _ _ _ E) as [_ Hwait].
    destruct (main_safe _ _ _ _ _ E) as [_ [[Hslot _] Hsets]].
    unfold wait_entry in Hwait. rewrite Hpc in Hwait, Hsets. destruct Hsets as [-> ->].
    split; [done|].
    split; intros x; rewrite fd_set_of_elem; (split; intros [-> Hw]; split; [done| |done|]).
    + destruct Hw as [w Hw]. exists w. split; [done|]. by apply (Hslot w Rd).
    + destruct Hw as (w & -> & _). eauto.
    + destruct Hw as [w Hw]. exists w. split; [done|]. by apply (Hslot w Wr).
    + destruct Hw as (w & -> & _). eauto.
  - intros cbs Hpc. unfold step. rewrite Hpc.
    destruct (run_callbacks cbs _ _) as [[conn1 supply1] tr_cb]. simpl. eauto.
Qed.

(** C10: in every run of either program, each [fluxio_waker_wake] is given
    a handle that is not [NULL] and is live at that moment.  In the wait
    phase the descriptor is in an interest set only if the slot of that
    direction is not [NULL]; after a [select] that did not fail, exactly the
    directions that are in the interest set and ready are fired, their
    slots are [NULL] afterwards, and the program is back in the drain
    phase. *)
Theorem wake_only_live_wakers (prog : program) (a : setup_answer)
    (answers : list answer) :
  let s := (main prog a answers).1 in
  let tr := (main prog a answers).2 in
  (∀ p w, (p ++ [EvWakerWake w]) `prefix_of` tr →
          ∃ h, w = Some h ∧ is_Some (live_wakers p !! h)) ∧
  (∀ fds_read fds_write, st_pc s = Wait fds_read fds_write →
     (fd (st_conn s) ∈ fds_read → is_Some (read_waker (st_conn s))) ∧
     (fd (st_conn s) ∈ fds_write → is_Some (write_waker (st_conn s))) ∧
     ∀ sel_ret ready_read ready_write, 0 ≤ sel_ret →
       let r := step prog s (ASelect sel_ret ready_read ready_write) in
       st_pc r.1 = Drain ∧
       r.2 = fired (st_conn s) (fds_read ∩ ready_read) (fds_write ∩ ready_write) ∧
       (fd (st_conn s) ∈ fds_read ∩ ready_read → read_waker (st_conn r.1) = None) ∧
       (fd (st_conn s) ∈ fds_write ∩ ready_write → write_waker (st_conn r.1) = None)).
Proof.
  intros s tr. subst s tr.
  destruct (main prog a answers) as [s tr] eqn:E. simpl.
  destruct (main_safe _ _ _ _ _ E) as [Hsafe [_ Hsets]].
  split; [intros p w Hp; exact (Hsafe p _ Hp)|].
  intros fr fw Hpc. rewrite Hpc in Hsets. destruct Hsets as [-> ->].
  split; [by intros [_ ?]%fd_set_of_elem|].
  split; [by intros [_ ?]%fd_set_of_elem|].
  intros sel_ret rr rw Hret. unfold step. rewrite Hpc.
  destruct (Z.ltb_spec sel_ret 0) as [?|_]; [lia|].
  unfold fire_wakers, fired, FD_ISSET.
  repeat case_bool_decide; simpl; repeat split; done.
Qed.
End LoopTheorems.

(** A run of client.c in which the first poll returns no task after a read
    that would block. *)
Lemma drain_before_wait_witness :
  ∃ pre', (setup Client setup_ok).2 ++ [EvRead 4 8192; EvContextWaker Rd 0%nat;
                                        EvExecutorPoll None]
          = pre' ++ [EvExecutorPoll None].
Proof.
  apply (drain_before_wait (H:=example_h) Client setup_ok [APoll [read_blocks] None]
           _ [] 5 {[4]} ∅).
  reflexivity.
Defined.

(** The same run: client.c is in the wait phase with the read waker
    registered. *)
Lemma wait_entry_interest_sets_witness :
  4 ∈ ({[4]} : gset Z) ↔
    4 = 4 ∧ ∃ w, Some 0%nat = Some w ∧
      live_wakers (main (H:=example_h) Client setup_ok [APoll [read_blocks] None]).2 !! w
        = Some Rd.
Proof.
  pose proof (wait_entry_interest_sets (H:=example_h) Client setup_ok
                [APoll [read_blocks] None]) as [W _].
  destruct (W {[4]} ∅ eq_refl) as (_ & W2 & _).
  exact (W2 4).
Defined.

(** The same run, then [select] reports the socket readable. *)
Lemma wake_only_live_wakers_witness :
  ∃ h, Some 0%nat = Some h ∧
       is_Some (live_wakers
                  (main (H:=example_h) Client setup_ok [APoll [read_blocks] None]).2 !! h).
Proof.
  apply (wake_only_live_wakers (H:=example_h) Client setup_ok
           [APoll [read_blocks] None; ASelect 1 {[4]} ∅]).
  exists []. reflexivity.
Defined.

(** C4 as stated fails: client.c enters the wait phase in the drain phase
    that completed the handshake task, and it enters it with both slots
    empty when a poll returns no task and no transfer has blocked. *)
Lemma wait_entered_after_completion_and_without_waker :
  ¬ wait_only_after_idle_drain (H:=example_h) Client setup_ok
      [APoll [] (Some (task EXAMPLE_HANDSHAKE FLUXIO_TASK_CLIENTCONN));
       APoll [read_blocks] None] ∧
  ¬ wait_only_with_live_waker (H:=example_h) Client setup_ok [APoll [] None].
Proof.
  split.
  - intros Hc. specialize (Hc {[4]} ∅ eq_refl). vm_compute in Hc. discriminate.
  - intros Hc. destruct (Hc ∅ ∅ eq_refl) as [[w Hw]|[w Hw]]; vm_compute in Hw; discriminate.
Qed.

(** ** The dispatcher *)

Lemma tracked_cases u :
  tracked u →
  (u =? EXAMPLE_HANDSHAKE) = true ∨
  ((u =? EXAMPLE_HANDSHAKE) = false ∧ (u =? EXAMPLE_SEND) = true) ∨
  ((u =? EXAMPLE_HANDSHAKE) = false ∧ (u =? EXAMPLE_SEND) = false ∧
   (u =? EXAMPLE_RESP_BODY) = true).
Proof. intros [->| [->| ->]]; auto. Qed.

(** A tag of the enumeration goes through the conversion unchanged. *)
Lemma example_id_of_tracked u : tracked u → example_id_of u = u.
Proof. by intros [->| [->| ->]]. Qed.

Lemma dispatch_error prog conn t :
  t_type t = FLUXIO_TASK_ERROR → tracked (example_id_of (t_userdata t)) →
  dispatch prog conn t =
    (Return 1, conn,
     match prog with
     | Client =>
         [EvCall "fluxio_task_userdata"; EvCall "fluxio_task_type";
          EvPrintf (phase_message (example_id_of (t_userdata t)));
          EvCall "fluxio_task_value"]
         ++ client_fail (t_value_null t)
     | Upload =>
         [EvCall "fluxio_task_type"; EvCall "fluxio_task_userdata";
          EvPrintf (phase_message (example_id_of (t_userdata t)))]
     end).
Proof.
  intros Hty Htag. unfold phase_message.
  destruct (tracked_cases _ Htag) as [E1|[[E1 E2]|(E1 & E2 & E3)]];
    destruct prog; simpl; unfold client_dispatch, upload_dispatch; cbv zeta;
    rewrite Hty, ?E1, ?E2, ?E3; reflexivity.
Qed.











Lemma nosubmit_free_if_set w : Forall (λ e, submits e = false) (free_if_set w).
Proof. destruct w; repeat constructor. Qed.

Lemma nosubmit_client_fail b : Forall (λ e, submits e = false) (client_fail b).
Proof. destruct b; repeat constructor. Qed.

Section DispatchFacts.
Context `{fluxio_h}.

Lemma nosubmit_run_callbacks cbs conn supply :
  Forall (λ e, submits e = false) (run_callbacks cbs conn supply).2.
Proof.
  revert conn supply. induction cbs as [|c cbs IH]; intros conn supply; simpl;
    [constructor|].
  specialize (IH (cb_conn (call_cb conn supply c)) (cb_supply (call_cb conn supply c))).
  destruct (run_callbacks cbs _ _) as [[c1 s1] t1]. simpl in *.
  apply Forall_app_2; [|done].
  destruct c; simpl; unfold read_cb, write_cb; repeat case_match; simpl;
    repeat first [ apply Forall_nil_2 | apply Forall_cons_2; [reflexivity|]
                 | apply nosubmit_free_if_set | apply Forall_app_2 ].
Qed.

Lemma run_exited prog s answers status :
  st_pc s = Exited status → run prog s answers = (s, []).
Proof.
  intros Hpc. induction answers as [|a rest IH]; simpl; [done|].
  unfold step. rewrite Hpc. rewrite IH. by destruct a.
Qed.



End DispatchFacts.


Section DispatchTheorems.
Context `{fluxio_h}.

(** C7: a task that completes with an error is never answered by creating,
    tagging or pushing a task, whatever its tag; and when the tag is the
    handshake's (or the send's, or the response body's) the program is gone
    with status 1 at once, so that nothing is submitted afterwards either,
    whatever the engine would have answered. *)
Theorem task_error_is_terminal (prog : program) (conn : conn_data) (supply : nat)
    (cbs : list io_call) (t : task_answer) (rest : list answer) :
  t_type t = FLUXIO_TASK_ERROR →
  let s := {| st_pc := Drain; st_conn := conn; st_supply := supply |} in
  Forall (λ e, submits e = false) (step prog s (APoll cbs (Some t))).2 ∧
  (tracked (t_userdata t) →
     st_pc (run prog s (APoll cbs (Some t) :: rest)).1 = Exited 1 ∧
     Forall (λ e, submits e = false) (run prog s (APoll cbs (Some t) :: rest)).2).
Proof.
  intros Hty s.
  assert (Forall (λ e, submits e = false) (step prog s (APoll cbs (Some t))).2) as Hstep.
  { unfold step; simpl.
    pose proof (nosubmit_run_callbacks cbs conn supply) as Hcb.
    destruct (run_callbacks cbs conn supply) as [[conn1 supply1] tr_cb]. simpl in Hcb.
    assert (Forall (λ e, submits e = false) (dispatch prog conn1 t).2) as Hd.
    { destruct prog; simpl; unfold client_dispatch, upload_dispatch; rewrite Hty; simpl;
        repeat case_match; simpl;
        repeat first [ apply Forall_nil_2 | apply Forall_cons_2; [reflexivity|]
                     | apply nosubmit_client_fail | apply Forall_app_2 ]. }
    destruct (dispatch prog conn1 t) as [[ctl conn2] tr_d]. simpl in *.
    apply Forall_app_2; [done|]. by apply Forall_cons_2. }
  split; [done|]. intros Htag. simpl.
  destruct (step prog s (APoll cbs (Some t))) as [s1 tr1] eqn:E1. simpl in Hstep.
  assert (st_pc s1 = Exited 1) as Hpc.
  { unfold step in E1; simpl in E1.
    destruct (run_callbacks cbs conn supply) as [[conn1 supply1] tr_cb].
    assert (tracked (example_id_of (t_userdata t))) as Hid
      by (by rewrite example_id_of_tracked).
    rewrite (dispatch_error prog conn1 t Hty Hid) in E1. by injection E1 as <- _. }
  rewrite (run_exited prog s1 rest 1 Hpc). simpl. by rewrite app_nil_r.
Qed.

(** C8, amended: when a task of a tracked tag is an error, the dispatcher
    returns 1 at once.  It leaves the connection and its wakers as they are
    and releases neither a waker, nor the task, nor the executor, nor the
    body, nor a buffer: every live handle stays live.  client.c frees the
    error object it took from the task, once, if it is not [NULL]; upload.c
    does not take it. *)
Theorem task_error_releases_nothing (prog : program) (conn : conn_data) (t : task_answer) :
  t_type t = FLUXIO_TASK_ERROR → tracked (t_userdata t) →
  let r := dispatch prog conn t in
  r.1.1 = Return 1 ∧ r.1.2 = conn ∧
  Forall (λ e, releases e = false) r.2 ∧
  (∀ live, live_from live r.2 = live) ∧
  count_calls "fluxio_error_free" r.2 =
    match prog with
    | Client => if t_value_null t then O else 1%nat
    | Upload => O
    end.
Proof.
  intros Hty Htag r. subst r.
  assert (tracked (example_id_of (t_userdata t))) as Hid
    by (by rewrite example_id_of_tracked).
  rewrite (dispatch_error prog conn t Hty Hid). simpl.
  split; [done|]. split; [done|].
  destruct prog, (t_value_null t); simpl;
    (split; [repeat constructor|]); (split; [done|]);
    unfold phase_message; by repeat case_match.
Qed.

End DispatchTheorems.

(** client.c polls a handshake task that is an error. *)
Lemma task_error_is_terminal_witness :
  st_pc (run (H:=example_h) Client
           {| st_pc := Drain; st_conn := conn4; st_supply := 0 |}
           [APoll [read_blocks; write_fails] (Some (task EXAMPLE_HANDSHAKE FLUXIO_TASK_ERROR));
            APoll [] (Some (task EXAMPLE_SEND FLUXIO_TASK_RESPONSE))]).1 = Exited 1.
Proof.
  apply (task_error_is_terminal (H:=example_h) Client conn4 0 [read_blocks; write_fails]
           (task EXAMPLE_HANDSHAKE FLUXIO_TASK_ERROR)
           [APoll [] (Some (task EXAMPLE_SEND FLUXIO_TASK_RESPONSE))]).
  - reflexivity.
  - left. reflexivity.
Defined.

Lemma task_error_releases_nothing_witness :
  count_calls "fluxio_error_free"
    (dispatch Client conn4 (task EXAMPLE_SEND FLUXIO_TASK_ERROR)).2 = 1%nat.
Proof.
  apply (task_error_releases_nothing Client conn4 (task EXAMPLE_SEND FLUXIO_TASK_ERROR)).
  - reflexivity.
  - right. left. reflexivity.
Defined.


(** The run the two programs are tried on: the read has blocked and its
    waker is registered, then the write fails and the handshake task is an
    error. *)
Lemma handshake_error_surfaced prog :
  task_error_surfaced
    (main (H:=example_h) prog setup_ok
       [APoll [read_blocks; write_fails]
          (Some (task EXAMPLE_HANDSHAKE FLUXIO_TASK_ERROR))]).2.
Proof.
  exists EXAMPLE_HANDSHAKE. split; [by left|].
  apply list_elem_of_In. destruct prog; vm_compute; tauto.
Qed.

(** C8 as stated fails: on that run client.c returns 1 with the read waker
    still live and the task not freed. *)
Lemma task_error_leaks_waker_and_task :
  ¬ error_exit_releases_all (H:=example_h) Client setup_ok
      [APoll [read_blocks; write_fails] (Some (task EXAMPLE_HANDSHAKE FLUXIO_TASK_ERROR))] ∧
  st_pc (main (H:=example_h) Client setup_ok
           [APoll [read_blocks; write_fails]
              (Some (task EXAMPLE_HANDSHAKE FLUXIO_TASK_ERROR))]).1 = Exited 1 ∧
  live_wakers
    (main (H:=example_h) Client setup_ok
       [APoll [read_blocks; write_fails]
          (Some (task EXAMPLE_HANDSHAKE FLUXIO_TASK_ERROR))]).2 !! 0%nat = Some Rd ∧
  count_calls "fluxio_task_free"
    (main (H:=example_h) Client setup_ok
       [APoll [read_blocks; write_fails]
          (Some (task EXAMPLE_HANDSHAKE FLUXIO_TASK_ERROR))]).2 = 0%nat.
Proof.
  split; [|split; [|split]; reflexivity].
  intros Hc. destruct (Hc (handshake_error_surfaced Client)) as [_ Hfree].
  vm_compute in Hfree. discriminate.
Qed.


(** ** The upload body producer *)

Section UploadFacts.
Context `{fluxio_h}.

(** C6: one poll of the producer makes one [read]; if it read more than
    zero bytes the poll is ready with a chunk that is a copy of the first
    [res] bytes of the buffer (the bytes just read); if it read zero bytes
    the poll is ready with [*chunk = NULL]; if the read failed the poll is
    [FLUXIO_POLL_ERROR] and [*chunk] is as it was. *)
Theorem poll_req_upload_contract {OS : Type}
    (sys_read : OS → Z → nat → Z * list Byte.byte * OS)
    (os : OS) (upload : upload_body) (chunk : option (list Byte.byte)) :
  let res := (sys_read os (upload_fd upload) (upload_len upload)).1.1 in
  let stored := (sys_read os (upload_fd upload) (upload_len upload)).1.2 in
  let r := poll_req_upload sys_read os upload chunk in
  (0 < res →
     poll_ret r = FLUXIO_POLL_READY ∧
     poll_chunk r = Some (take (Z.to_nat res) (upload_buf (poll_upload r))) ∧
     (length stored = Z.to_nat res → poll_chunk r = Some stored) ∧
     poll_trace r = [EvCall "read"; EvCall "fluxio_buf_copy"]) ∧
  (res = 0 →
     poll_ret r = FLUXIO_POLL_READY ∧ poll_chunk r = None ∧
     poll_trace r = [EvCall "read"]) ∧
  (res < 0 →
     poll_ret r = FLUXIO_POLL_ERROR ∧ poll_chunk r = chunk ∧
     poll_trace r = [EvCall "read"; EvPrintf "error reading upload file: %d"]).
Proof.
  intros res stored r. subst res stored r. unfold poll_req_upload.
  destruct (sys_read os (upload_fd upload) (upload_len upload)) as [[res stored] os'].
  simpl.
  destruct (Z.ltb_spec 0 res); [|destruct (Z.eqb_spec res 0)]; simpl;
    repeat split; intros; try lia; try done.
  unfold fluxio_buf_copy. f_equal.
  rewrite take_app_length'; done.
Qed.

Lemma ceil_div_0 B : (0 < B)%nat → ceil_div 0 B = O.
Proof. intros HB. unfold ceil_div. apply Nat.div_small. lia. Qed.

Lemma ceil_div_step L B :
  (0 < B)%nat → (0 < L)%nat → ceil_div L B = S (ceil_div (L - B `min` L) B).
Proof.
  intros HB HL. unfold ceil_div.
  destruct (decide (L ≤ B)%nat) as [Hle|Hgt].
  - replace (L - B `min` L)%nat with O by lia.
    rewrite (Nat.div_small (0 + B - 1) B) by lia.
    replace (L + B - 1)%nat with ((L - 1) + 1 * B)%nat by lia.
    rewrite Nat.div_add by lia. rewrite Nat.div_small by lia. done.
  - replace (L + B - 1)%nat with ((L - B `min` L + B - 1) + 1 * B)%nat by lia.
    rewrite Nat.div_add by lia. lia.
Qed.

Lemma engine_pull_body_S {OS : Type} (sys_read : OS → Z → nat → Z * list Byte.byte * OS)
    fuel os upload :
  engine_pull_body sys_read (S fuel) os upload =
  if poll_ret (poll_req_upload sys_read os upload None) =? FLUXIO_POLL_READY then
    match poll_chunk (poll_req_upload sys_read os upload None) with
    | Some _ =>
        poll_req_upload sys_read os upload None
        :: engine_pull_body sys_read fuel
             (poll_os (poll_req_upload sys_read os upload None))
             (poll_upload (poll_req_upload sys_read os upload None))
    | None => [poll_req_upload sys_read os upload None]
    end
  else [poll_req_upload sys_read os upload None].
Proof. reflexivity. Qed.

Lemma poll_req_upload_file data pos fd buf B chunk :
  let got := take B (drop pos data) in
  let r := poll_req_upload file_read {| file_data := data; file_pos := pos |}
             {| upload_fd := fd; upload_buf := buf; upload_len := B |} chunk in
  poll_ret r = FLUXIO_POLL_READY ∧
  poll_chunk r = (if decide (got = []) then None else Some got) ∧
  poll_os r = {| file_data := data; file_pos := pos + length got |} ∧
  poll_upload r =
    {| upload_fd := fd; upload_buf := got ++ drop (length got) buf; upload_len := B |}.
Proof.
  intros got r. subst r. unfold poll_req_upload, file_read. simpl. fold got.
  destruct (decide (got = [])) as [->|Hne]; simpl; [done|].
  destruct (Z.ltb_spec 0 (Z.of_nat (length got))) as [_|Hle]; simpl.
  - repeat split. unfold fluxio_buf_copy. by rewrite Nat2Z.id, take_app_length.
  - destruct got; [done | simpl in Hle; lia].
Qed.

Lemma pull_from (data : list Byte.byte) (fd : Z) (B : nat) :
  (0 < B)%nat →
  ∀ fuel pos buf,
    (ceil_div (length (drop pos data)) B < fuel)%nat →
    let rs := engine_pull_body file_read fuel
                {| file_data := data; file_pos := pos |}
                {| upload_fd := fd; upload_buf := buf; upload_len := B |} in
    ∃ cs, poll_chunk <$> rs = (Some <$> cs) ++ [None] ∧
          length cs = ceil_div (length (drop pos data)) B ∧
          Forall (λ c, c ≠ []) cs ∧
          concat cs = drop pos data ∧
          Forall (λ r, poll_ret r = FLUXIO_POLL_READY) rs.
Proof.
  intros HB. induction fuel as [|fuel IH]; intros pos buf Hfuel; [lia|].
  cbv zeta. rewrite engine_pull_body_S.
  destruct (poll_req_upload_file data pos fd buf B None) as (Hret & Hchunk & Hos & Hup).
  set (r := poll_req_upload file_read _ _ None) in *.
  set (rem := drop pos data) in *.
  set (got := take B rem) in *.
  rewrite Hret, Z.eqb_refl, Hchunk, Hos, Hup.
  destruct (decide (got = [])) as [Hgot0|Hne].
  - assert (rem = []) as Hrem.
    { destruct rem as [|x rem']; [done|]. subst got. destruct B; [lia | done]. }
    exists []. rewrite Hrem. simpl. rewrite ceil_div_0 by done.
    rewrite Hchunk. repeat split; try done. by repeat constructor.
  - assert (0 < length rem)%nat as Hlen.
    { destruct rem; [by subst got; rewrite take_nil in Hne | simpl; lia]. }
    assert (length got = (B `min` length rem)%nat) as Hgot by (subst got; apply length_take).
    assert (drop (pos + length got) data = drop B rem) as Hdrop.
    { subst rem. rewrite drop_drop, Hgot.
      destruct (decide (B ≤ length (drop pos data))%nat) as [?|Hgt].
      - by rewrite Nat.min_l.
      - rewrite Nat.min_r by lia. rewrite length_drop in *.
        rewrite !drop_ge; [done | lia | lia]. }
    rewrite (ceil_div_step _ B HB Hlen) in Hfuel |- *.
    assert (length (drop B rem) = length rem - B `min` length rem)%nat as Hl'.
    { rewrite length_drop. lia. }
    destruct (IH (pos + length got)%nat (got ++ drop (length got) buf)) as
      (cs & Hcs & Hk & Hnonempty & Hcat & Hready).
    { rewrite Hdrop, Hl'. lia. }
    exists (got :: cs). rewrite fmap_cons, Hcs, Hchunk.
    repeat split.
    + simpl. rewrite Hk, Hdrop, Hl'. done.
    + by constructor.
    + simpl. rewrite Hcat, Hdrop. subst got. apply take_drop.
    + by constructor.
Qed.

Lemma take_drop_length {A} n (l : list A) : take n l ++ drop (length (take n l)) l = l.
Proof.
  rewrite length_take. destruct (decide (n ≤ length l)%nat).
  - rewrite Nat.min_l by done. apply take_drop.
  - rewrite Nat.min_r by lia. rewrite take_ge, drop_ge by lia. apply app_nil_r.
Qed.


Lemma read_limit_bounds script B : (0 < B)%nat → (0 < read_limit script B ≤ B)%nat.
Proof. intros HB. unfold read_limit. destruct script; lia. Qed.

Lemma take_nil_iff {A} n (l : list A) : (0 < n)%nat → take n l = [] ↔ l = [].
Proof.
  intros Hn. destruct l as [|x l]; [by rewrite take_nil|].
  destruct n; [lia | done].
Qed.

Lemma poll_req_upload_source (s : source) fd buf B :
  let r := poll_req_upload source_read s
             {| upload_fd := fd; upload_buf := buf; upload_len := B |} None in
  let got := take (read_limit (src_script s) B) (drop (src_pos s) (src_data s)) in
  upload_fd (poll_upload r) = fd ∧ upload_len (poll_upload r) = B ∧
  match src_script s with
  | z :: rest =>
      if z <? 0 then
        poll_ret r = FLUXIO_POLL_ERROR ∧ poll_chunk r = None
      else
        poll_ret r = FLUXIO_POLL_READY ∧
        poll_chunk r = (if decide (got = []) then None else Some got) ∧
        poll_os r = {| src_data := src_data s; src_pos := src_pos s + length got;
                       src_script := rest |}
  | [] =>
      poll_ret r = FLUXIO_POLL_READY ∧
      poll_chunk r = (if decide (got = []) then None else Some got) ∧
      poll_os r = {| src_data := src_data s; src_pos := src_pos s + length got;
                     src_script := [] |}
  end.
Proof.
  intros r got. subst r.
  assert (∀ g : list Byte.byte,
            (0 <? Z.of_nat (length g)) = bool_decide (g ≠ [])) as Hpos.
  { intros [|x g]; simpl; [done|].
    by destruct (Z.ltb_spec 0 (Z.pos (Pos.of_succ_nat (length g)))); [|lia]. }
  unfold poll_req_upload, source_read. subst got.
  destruct (src_script s) as [|z rest] eqn:Hs; simpl;
    [|destruct (z <? 0) eqn:Hz; simpl; [by repeat split|]];
    match goal with
    | |- context [take ?n (drop (src_pos s) (src_data s))] =>
        set (g := take n (drop (src_pos s) (src_data s))) in *
    end;
    rewrite Hpos; destruct (decide (g = [])) as [E|E];
    [ rewrite bool_decide_false by (by intros ?); rewrite E; simpl; by repeat split
    | rewrite bool_decide_true by done; simpl; repeat split;
      unfold fluxio_buf_copy; by rewrite Nat2Z.id, take_app_length
    | rewrite bool_decide_false by (by intros ?); rewrite E; simpl; by repeat split
    | rewrite bool_decide_true by done; simpl; repeat split;
      unfold fluxio_buf_copy; by rewrite Nat2Z.id, take_app_length ].
Qed.
Lemma pull_source (B : nat) (fd : Z) :
  (0 < B)%nat →
  ∀ fuel (s : source) buf,
    let rs := engine_pull_body source_read fuel s
                {| upload_fd := fd; upload_buf := buf; upload_len := B |} in
    let rem := drop (src_pos s) (src_data s) in
    concat (chunks_of rs) `prefix_of` rem ∧
    Forall (λ c, c ≠ [] ∧ (length c ≤ B)%nat) (chunks_of rs) ∧
    (Forall (λ z, 0 ≤ z) (src_script s) → (length rem < fuel)%nat →
       poll_chunk <$> rs = (Some <$> chunks_of rs) ++ [None] ∧
       concat (chunks_of rs) = rem ∧
       Forall (λ r, poll_ret r = FLUXIO_POLL_READY) rs).
Proof.
  intros HB. induction fuel as [|fuel IH]; intros s buf.
  { simpl. split; [by apply prefix_nil|]. split; [constructor|]. intros _ ?. lia. }
  cbv zeta. rewrite engine_pull_body_S.
  destruct (poll_req_upload_source s fd buf B) as (Hfd & Hlen & Hr).
  pose proof (read_limit_bounds (src_script s) B HB) as Hlim.
  set (r := poll_req_upload source_read s _ None) in *.
  set (rem := drop (src_pos s) (src_data s)) in *.
  set (got := take (read_limit (src_script s) B) rem) in *.
  assert (poll_ret r = FLUXIO_POLL_ERROR ∧ poll_chunk r = None ∧
          ¬ Forall (λ z, 0 ≤ z) (src_script s) ∨
          poll_ret r = FLUXIO_POLL_READY ∧
          poll_chunk r = (if decide (got = []) then None else Some got) ∧
          src_data (poll_os r) = src_data s ∧
          src_pos (poll_os r) = (src_pos s + length got)%nat ∧
          (Forall (λ z, 0 ≤ z) (src_script s) →
           Forall (λ z, 0 ≤ z) (src_script (poll_os r)))) as Hcases.
  { destruct (src_script s) as [|z rest].
    - right. destruct Hr as (? & ? & ->). by repeat split.
    - destruct (Z.ltb_spec z 0).
      + left. destruct Hr as [? ?]. repeat split; try done.
        intros [? _]%Forall_cons_1. lia.
      + right. destruct Hr as (? & ? & ->). repeat split; try done.
        by intros [_ ?]%Forall_cons_1. }
  clear Hr. destruct Hcases as [(Hret & Hchunk & Hneg)|(Hret & Hchunk & Hdata & Hposn & Hscr)].
  - (* the read failed *)
    assert ((if poll_ret r =? FLUXIO_POLL_READY
             then match poll_chunk r with
                  | Some _ => r :: engine_pull_body source_read fuel (poll_os r) (poll_upload r)
                  | None => [r]
                  end
             else [r]) = [r]) as -> by (rewrite Hchunk; by destruct (_ =? _)).
    unfold chunks_of. simpl. rewrite Hchunk.
    split; [by apply prefix_nil|]. split; [constructor|]. by intros ?.
  - rewrite Hret, Z.eqb_refl, Hchunk.
    destruct (decide (got = [])) as [Hgot|Hgot].
    + (* end of the source *)
      unfold chunks_of. simpl. rewrite Hchunk.
      split; [by apply prefix_nil|]. split; [constructor|]. intros _ _.
      apply take_nil_iff in Hgot; [|lia]. rewrite Hgot.
      repeat split; try done. by repeat constructor.
    + (* a chunk *)
      destruct (poll_upload r) as [fd' buf' B']. simpl in Hfd, Hlen. subst fd' B'.
      destruct (IH (poll_os r) buf') as (IH1 & IH2 & IH3).
      rewrite Hdata, Hposn in IH1, IH3.
      assert (drop (src_pos s + length got) (src_data s) = drop (length got) rem) as Hdrop
        by (subst rem; by rewrite drop_drop).
      rewrite Hdrop in IH1, IH3.
      assert (got ++ drop (length got) rem = rem) as Hrem by apply take_drop_length.
      assert (0 < length got ≤ B)%nat as Hlg.
      { split; [destruct got; [done | simpl; lia]|].
        subst got. rewrite length_take. lia. }
      unfold chunks_of in *. simpl. rewrite Hchunk. simpl.
      split; [|split].
      * apply (prefix_app got) in IH1. by rewrite Hrem in IH1.
      * constructor; [split; [done | lia] | done].
      * intros Hs Hfuel. destruct (IH3 (Hscr Hs)) as (E1 & E2 & E3).
        { pose proof (f_equal length Hrem) as Hl. rewrite length_app in Hl. lia. }
        repeat split; [f_equal; exact E1 | rewrite <- Hrem; f_equal; exact E2 | by constructor].
Qed.

Lemma chunk_count_bounds (cs : list (list Byte.byte)) (B : nat) :
  (0 < B)%nat →
  Forall (λ c, c ≠ [] ∧ (length c ≤ B)%nat) cs →
  (ceil_div (length (concat cs)) B ≤ length cs ≤ length (concat cs))%nat.
Proof.
  intros HB Hcs.
  assert (length cs ≤ length (concat cs) ≤ length cs * B)%nat as [Hlo Hhi].
  { induction Hcs as [|c cs [Hne Hle] _ IH]; simpl; [lia|].
    rewrite length_app. destruct c; [done|]. simpl in *. lia. }
  split; [|done]. unfold ceil_div.
  apply Nat.lt_succ_r, Nat.Div0.div_lt_upper_bound. nia.
Qed.

(** C5, amended: a source of [L] bytes on which no read fails, polled to
    its end through a scratch buffer of [B > 0] bytes: the engine's polls
    are all ready; they hand over chunks that are not empty and then, once
    and last, [NULL]; the chunks in order make up the source.  There are at
    least [ceil (L / B)] chunks and at most [L].  On a regular file, whose
    reads fill the buffer as far as bytes are left, there are exactly
    [ceil (L / B)]. *)
Theorem upload_round_trip (data buf : list Byte.byte) (script : list Z) (fd : Z)
    (B fuel : nat) :
  (0 < B)%nat →
  (Forall (λ z, 0 ≤ z) script → (length data < fuel)%nat →
   let rs := engine_pull_body source_read fuel
               {| src_data := data; src_pos := 0; src_script := script |}
               {| upload_fd := fd; upload_buf := buf; upload_len := B |} in
   ∃ cs, poll_chunk <$> rs = (Some <$> cs) ++ [None] ∧
         (ceil_div (length data) B ≤ length cs ≤ length data)%nat ∧
         Forall (λ c, c ≠ []) cs ∧
         concat cs = data ∧
         Forall (λ r, poll_ret r = FLUXIO_POLL_READY) rs) ∧
  ((ceil_div (length data) B < fuel)%nat →
   let rs := engine_pull_body file_read fuel
               {| file_data := data; file_pos := 0 |}
               {| upload_fd := fd; upload_buf := buf; upload_len := B |} in
   ∃ cs, poll_chunk <$> rs = (Some <$> cs) ++ [None] ∧
         length cs = ceil_div (length data) B ∧
         Forall (λ c, c ≠ []) cs ∧
         concat cs = data ∧
         Forall (λ r, poll_ret r = FLUXIO_POLL_READY) rs).
Proof.
  intros HB. split.
  - intros Hs Hfuel.
    destruct (pull_source B fd HB fuel
                {| src_data := data; src_pos := 0; src_script := script |} buf)
      as (_ & Hcs & Hall).
    destruct (Hall Hs Hfuel) as (Hpolls & Hcat & Hready).
    eexists. split; [exact Hpolls|].
    split; [|split; [|split; [exact Hcat | exact Hready]]].
    + pose proof (chunk_count_bounds _ B HB Hcs) as Hb. by rewrite Hcat in Hb.
    + eapply Forall_impl; [exact Hcs|]. by intros c [? _].
  - intros Hfuel. exact (pull_from data fd B HB fuel 0%nat buf Hfuel).
Qed.

(** The scratch buffer of upload.c has 8192 bytes. *)
Corollary upload_round_trip_8192 (data garbage : list Byte.byte) (fd : Z) (fuel : nat) :
  (ceil_div (length data) (Z.to_nat 8192) < fuel)%nat →
  ∃ cs, poll_chunk <$> engine_pull_body file_read fuel
                         {| file_data := data; file_pos := 0 |} (upload_init fd garbage)
          = (Some <$> cs) ++ [None] ∧
        length cs = ceil_div (length data) (Z.to_nat 8192) ∧
        concat cs = data.
Proof.
  intros Hfuel.
  destruct (pull_from data fd (Z.to_nat 8192) ltac:(lia) fuel 0%nat garbage Hfuel)
    as (cs & ? & ? & _ & ? & _).
  by exists cs.
Qed.
End UploadFacts.

(** A read of three bytes into a buffer of four. *)
Lemma poll_req_upload_contract_witness :
  poll_chunk (poll_req_upload (H:=example_h) file_read
                {| file_data := abcde; file_pos := 2 |}
                {| upload_fd := 3; upload_buf := [Byte.x00; Byte.x00; Byte.x00; Byte.x00];
                   upload_len := 4 |} None)
  = Some [Byte.x63; Byte.x64; Byte.x65].
Proof.
  apply (poll_req_upload_contract (H:=example_h) file_read
           {| file_data := abcde; file_pos := 2 |}
           {| upload_fd := 3; upload_buf := [Byte.x00; Byte.x00; Byte.x00; Byte.x00];
              upload_len := 4 |} None).
  - reflexivity.
  - reflexivity.
Defined.

(** Five bytes through a buffer of two, the first two reads delivering one
    byte each: between three and five chunks, then the end. *)
Lemma upload_round_trip_witness :
  ∃ cs, poll_chunk <$> engine_pull_body (H:=example_h) source_read 6
                         {| src_data := abcde; src_pos := 0; src_script := [1; 0; 3] |}
                         {| upload_fd := 3; upload_buf := []; upload_len := 2 |}
          = (Some <$> cs) ++ [None] ∧
        (ceil_div (length abcde) 2 ≤ length cs ≤ length abcde)%nat ∧
        Forall (λ c, c ≠ []) cs ∧
        concat cs = abcde ∧
        Forall (λ r, poll_ret r = 0)
          (engine_pull_body (H:=example_h) source_read 6
             {| src_data := abcde; src_pos := 0; src_script := [1; 0; 3] |}
             {| upload_fd := 3; upload_buf := []; upload_len := 2 |}).
Proof.
  assert (0 < 2)%nat as HB by lia.
  destruct (upload_round_trip (H:=example_h) abcde [] [1; 0; 3] 3 2 6 HB) as [W _].
  apply W.
  - repeat constructor; lia.
  - simpl. lia.
Defined.

(** C5 as stated fails: on that source, whose first two reads deliver one
    byte each, the five bytes come in four chunks, not in
    [ceil (5 / 2) = 3]. *)
Lemma upload_short_reads_need_more_polls :
  length (chunks_of (engine_pull_body (H:=example_h) source_read 6
                       {| src_data := abcde; src_pos := 0; src_script := [1; 0; 3] |}
                       {| upload_fd := 3; upload_buf := []; upload_len := 2 |})) = 4%nat ∧
  ceil_div (length abcde) 2 = 3%nat ∧
  ¬ round_trip_in_ceil_polls (H:=example_h) source_read
      {| src_data := abcde; src_pos := 0; src_script := [1; 0; 3] |} abcde
      {| upload_fd := 3; upload_buf := []; upload_len := 2 |} 6.
Proof.
  split; [reflexivity|]. split; [reflexivity|].
  intros (cs & Hpolls & Hlen & _).
  apply (f_equal length) in Hpolls.
  rewrite length_app, !length_fmap, Hlen in Hpolls.
  vm_compute in Hpolls. discriminate.
Qed.

(** * Further facts *)

(** ** Counting calls *)

Lemma count_calls_nil fn : count_calls fn [] = O.
Proof. done. Qed.

Lemma count_calls_app fn t1 t2 :
  count_calls fn (t1 ++ t2) = (count_calls fn t1 + count_calls fn t2)%nat.
Proof. unfold count_calls. by rewrite List.filter_app, length_app. Qed.

Lemma count_calls_cons fn e tr :
  count_calls fn (e :: tr) =
    ((if is_call fn e then 1 else 0) + count_calls fn tr)%nat.
Proof. unfold count_calls. simpl. by destruct (is_call fn e). Qed.

Ltac count_calls :=
  repeat first [rewrite count_calls_cons | rewrite count_calls_app | rewrite count_calls_nil];
  repeat match goal with
         | |- context [is_call ?f ?e] =>
             let v := eval vm_compute in (is_call f e) in
             change (is_call f e) with v
         end;
  cbv iota; rewrite ?Nat.add_0_l, ?Nat.add_0_r.

(** ** [connect_to] *)

Lemma try_addresses_find rp :
  (try_addresses rp).1 = ai_socket <$> List.find connects rp.
Proof.
  induction rp as [|a rp IH]; simpl; [done|]. unfold connects.
  destruct (try_addresses rp) as [r tr]. simpl in IH.
  destruct (ai_socket a =? -1); simpl; [done|].
  by destruct (ai_connect a =? -1).
Qed.

(** X1: [connect_to] returns the socket of the first address of the list on
    which both [socket] and [connect] succeed, and -1 when [getaddrinfo]
    fails or there is no such address; it returns -1 in no other case. *)
Theorem connect_to_first_address (gai : Z) (result : list addr_answer) :
  (connect_to gai result).1 =
    (if gai =? 0 then default (-1) (ai_socket <$> List.find connects result) else -1) ∧
  ((connect_to gai result).1 = -1 ↔
     gai ≠ 0 ∨ Forall (λ a, connects a = false) result).
Proof.
  assert ((connect_to gai result).1 =
    (if gai =? 0 then default (-1) (ai_socket <$> List.find connects result) else -1)) as E.
  { unfold connect_to. pose proof (try_addresses_find result) as Hf.
    destruct (try_addresses result) as [r tr]. simpl in Hf. rewrite <- Hf.
    destruct (gai =? 0); simpl; [|done]. by destruct r. }
  split; [done|]. rewrite E.
  destruct (Z.eqb_spec gai 0) as [->|Hne]; [|by split; [left|]].
  split.
  - intros Hm. right. apply Forall_forall. intros a Ha.
    destruct (connects a) eqn:Hc; [|done]. exfalso.
    apply list_elem_of_In in Ha.
    destruct (List.find connects result) as [b|] eqn:Hfind; simpl in Hm.
    + apply List.find_some in Hfind as [_ Hb]. unfold connects in Hb.
      rewrite Hm in Hb. done.
    + by rewrite (List.find_none _ _ Hfind a Ha) in Hc.
  - intros [?|Hall]; [done|].
    destruct (List.find connects result) as [b|] eqn:Hfind; simpl; [|done].
    apply List.find_some in Hfind as [Hin Hb]. apply list_elem_of_In in Hin.
    rewrite Forall_forall in Hall. by rewrite (Hall b Hin) in Hb.
Qed.

Lemma try_addresses_calls rp :
  count_calls "connect" (try_addresses rp).2 =
    (count_calls "close" (try_addresses rp).2 +
     (if (try_addresses rp).1 is Some _ then 1 else 0))%nat ∧
  (count_calls "socket" (try_addresses rp).2 ≤ length rp)%nat ∧
  count_calls "freeaddrinfo" (try_addresses rp).2 = O ∧
  count_calls "getaddrinfo" (try_addresses rp).2 = O.
Proof.
  induction rp as [|a rp (IH1 & IH2 & IH3 & IH4)]; simpl; [done|].
  destruct (try_addresses rp) as [r tr]. simpl in *.
  destruct (ai_socket a =? -1); simpl.
  - count_calls. destruct r; unfold count_calls in *; repeat split; try done; lia.
  - destruct (ai_connect a =? -1); simpl.
    + count_calls. destruct r; unfold count_calls in *; repeat split; try done; lia.
    + count_calls. destruct r; unfold count_calls in *; repeat split; try done; lia.
Qed.

(** X2: [connect_to] leaks no descriptor and frees the address list: every
    socket it tried [connect] on is closed, but for the one it returns; it
    calls [freeaddrinfo] once if [getaddrinfo] succeeded and not at all if
    it failed; it opens at most one socket per address. *)
Theorem connect_to_closes_sockets (gai : Z) (result : list addr_answer) :
  let r := connect_to gai result in
  count_calls "connect" r.2 =
    (count_calls "close" r.2 + (if (r.1 =? -1)%Z then 0 else 1))%nat ∧
  count_calls "freeaddrinfo" r.2 = (if gai =? 0 then 1%nat else O) ∧
  (count_calls "socket" r.2 ≤ length result)%nat.
Proof.
  intros r. subst r. unfold connect_to.
  pose proof (try_addresses_calls result) as (H1 & H2 & H3 & H4).
  pose proof (try_addresses_find result) as Hf.
  destruct (try_addresses result) as [res tr]. simpl in *.
  destruct (gai =? 0); simpl; [|count_calls; repeat split; lia].
  destruct res as [sfd|]; simpl.
  - assert (sfd ≠ -1) as Hs.
    { destruct (List.find connects result) as [b|] eqn:Hfind; [|done].
      injection Hf as ->. apply List.find_some in Hfind as [_ Hb].
      unfold connects in Hb. intros E. by rewrite E in Hb. }
    destruct (Z.eqb_spec sfd (-1)); [done|].
    count_calls. unfold count_calls in *.
    rewrite H1, H3. repeat split; lia.
  - count_calls. unfold count_calls in *.
    rewrite H1, H3. repeat split; lia.
Qed.

(** ** Waker handles over whole runs *)

Lemma issued_app t1 t2 : issued (t1 ++ t2) = issued t1 ++ issued t2.
Proof. apply omap_app. Qed.

Lemma consumed_app t1 t2 : consumed (t1 ++ t2) = consumed t1 ++ consumed t2.
Proof. apply omap_app. Qed.

Lemma each_step_prefix Q live p tr :
  each_step Q live tr → p `prefix_of` tr → each_step Q live p.
Proof.
  intros Htr [k ->] q e [k' Hq]. apply Htr. exists (k' ++ k).
  by rewrite Hq, <- app_assoc.
Qed.

(** Handles that are handed out once each and consumed only while live are
    consumed at most once, and the live ones are those handed out and not
    yet consumed. *)
Lemma consumed_once tr :
  each_step waker_safe ∅ tr → NoDup (issued tr) →
  NoDup (consumed tr) ∧ consumed tr ⊆ issued tr ∧
  (∀ w, is_Some (live_wakers tr !! w) ↔ w ∈ issued tr ∧ w ∉ consumed tr).
Proof.
  induction tr as [|e tr IH] using rev_ind; intros Hsafe Hnd.
  { split; [constructor|]. split; [done|]. intros w.
    unfold live_wakers; simpl. rewrite lookup_empty. split.
    - by intros [x Hx].
    - intros [Hx _]. by apply not_elem_of_nil in Hx. }
  rewrite issued_app in Hnd. apply NoDup_app in Hnd as (Hnd & Hdisj & _).
  destruct IH as (IH1 & IH2 & IH3);
    [apply (each_step_prefix _ _ tr _ Hsafe); by exists [e] | done |].
  assert (waker_safe (live_wakers tr) e) as He by (apply Hsafe; exists []; by rewrite app_nil_r).
  unfold live_wakers in *. rewrite live_from_app, issued_app, consumed_app. simpl.
  destruct e as [| | w | d w | [w|] | | | | |]; simpl in *;
    rewrite ?app_nil_r; try done.
  - (* fluxio_waker_free *)
    apply IH3 in He as [Hin Hnot]. split; [|split].
    + apply NoDup_app. repeat split; [done | | apply NoDup_singleton].
      by intros x Hx ->%list_elem_of_singleton.
    + intros x [Hx| ->%list_elem_of_singleton]%elem_of_app; auto.
    + intros x. rewrite lookup_delete_is_Some, IH3, not_elem_of_app, list_elem_of_singleton.
      clear. intuition congruence.
  - (* fluxio_context_waker *)
    destruct He as [Hnew _]. split; [done|].
    split; [intros x Hx; apply elem_of_app; auto|].
    assert (w ∉ issued tr) as Hw.
    { intros Hw. apply (Hdisj w Hw). by apply list_elem_of_singleton. }
    assert (w ∉ consumed tr) as Hw' by (intros Hc; by apply Hw, IH2).
    intros x. rewrite lookup_insert_is_Some', IH3, elem_of_app, list_elem_of_singleton.
    clear -Hw'. destruct (decide (w = x)) as [->|Hne]; intuition congruence.
  - (* fluxio_waker_wake *)
    destruct He as (w' & [= <-] & He).
    apply IH3 in He as [Hin Hnot]. split; [|split].
    + apply NoDup_app. repeat split; [done | | apply NoDup_singleton].
      by intros x Hx ->%list_elem_of_singleton.
    + intros x [Hx| ->%list_elem_of_singleton]%elem_of_app; auto.
    + intros x. rewrite lookup_delete_is_Some, IH3, not_elem_of_app, list_elem_of_singleton.
      clear. intuition congruence.
Qed.

Lemma omap_all_None {A B} (f : A → option B) (l : list A) :
  Forall (λ x, f x = None) l → omap f l = [].
Proof. induction 1 as [|x l Hx _ IH]; simpl; [done|]. by rewrite Hx. Qed.

Lemma plain_free_if_set w : Forall (λ e, is_plain e = true) (free_if_set w).
Proof. destruct w; repeat constructor. Qed.

Lemma plain_print_each_header n : Forall (λ e, is_plain e = true) (print_each_header n).
Proof. by apply Forall_replicate. Qed.

Lemma plain_client_fail b : Forall (λ e, is_plain e = true) (client_fail b).
Proof. destruct b; repeat constructor. Qed.

Lemma plain_dispatch prog conn t :
  Forall (λ e, is_plain e = true) (dispatch prog conn t).2.
Proof.
  destruct prog; simpl; unfold client_dispatch, upload_dispatch, free_conn_data;
    repeat case_match; simpl;
    repeat first
      [ apply Forall_nil_2
      | apply Forall_cons_2; [reflexivity|]
      | apply plain_print_each_header
      | apply plain_client_fail
      | apply plain_free_if_set
      | apply Forall_app_2 ].
Qed.

Lemma issued_plain tr : Forall (λ e, is_plain e = true) tr → issued tr = [].
Proof.
  intros Hp. apply omap_all_None. eapply Forall_impl; [exact Hp|].
  by intros [].
Qed.

Lemma issued_inert tr : Forall (λ e, inert e = true) tr → issued tr = [].
Proof.
  intros Hp. apply omap_all_None. eapply Forall_impl; [exact Hp|].
  by intros [].
Qed.

Lemma issued_fired conn fr fw : issued (fired conn fr fw) = [].
Proof. unfold fired. by repeat case_match. Qed.

Section HandleFacts.
Context `{fluxio_h}.

Lemma issued_call_cb conn supply c :
  issued (cb_trace (call_cb conn supply c)) =
    seq supply (cb_supply (call_cb conn supply c) - supply) ∧
  (supply ≤ cb_supply (call_cb conn supply c))%nat.
Proof.
  assert (∀ w d, issued (free_if_set w ++ [EvContextWaker d supply]) =
                   seq supply (S supply - supply)) as Hblock.
  { intros w d. replace (S supply - supply)%nat with 1%nat by lia.
    unfold issued. rewrite omap_app. by destruct w. }
  destruct c as [n ret errno|n ret errno]; simpl;
    unfold read_cb, write_cb, fluxio_context_waker;
    destruct (0 <=? ret); try destruct (negb (errno =? EAGAIN)); simpl;
    rewrite ?Nat.sub_diag;
    first [ by split; [apply Hblock | lia] | by split; [|lia] ].
Qed.

Lemma issued_run_callbacks cbs conn supply :
  issued (run_callbacks cbs conn supply).2 =
    seq supply ((run_callbacks cbs conn supply).1.2 - supply) ∧
  (supply ≤ (run_callbacks cbs conn supply).1.2)%nat.
Proof.
  revert conn supply. induction cbs as [|c cbs IH]; intros conn supply; simpl.
  { by rewrite Nat.sub_diag. }
  destruct (issued_call_cb conn supply c) as [E1 L1].
  destruct (IH (cb_conn (call_cb conn supply c)) (cb_supply (call_cb conn supply c)))
    as [E2 L2].
  destruct (run_callbacks cbs _ _) as [[c1 s1] t1]. simpl in *.
  rewrite issued_app, E1, E2. split; [|lia].
  replace (s1 - supply)%nat
    with ((cb_supply (call_cb conn supply c) - supply) +
          (s1 - cb_supply (call_cb conn supply c)))%nat by lia.
  rewrite seq_app. do 2 f_equal. lia.
Qed.

Lemma issued_step prog s a :
  issued (step prog s a).2 =
    seq (st_supply s) (st_supply (step prog s a).1 - st_supply s) ∧
  (st_supply s ≤ st_supply (step prog s a).1)%nat.
Proof.
  unfold step.
  destruct (st_pc s) as [|fr fw|status|], a as [cbs task|sel_ret rr rw]; simpl;
    rewrite ?Nat.sub_diag; try done.
  - destruct (issued_run_callbacks cbs (st_conn s) (st_supply s)) as [E L].
    destruct (run_callbacks cbs _ _) as [[conn1 supply1] tr_cb]. simpl in *.
    destruct task as [t|].
    + pose proof (issued_plain _ (plain_dispatch prog conn1 t)) as Ed.
      destruct (dispatch prog conn1 t) as [[ctl conn2] tr_d]. simpl in *.
      change (EvExecutorPoll (Some (t_userdata t, t_type t)) :: tr_d)
        with ([EvExecutorPoll (Some (t_userdata t, t_type t))] ++ tr_d).
      by rewrite !issued_app, E, Ed, !app_nil_r.
    + simpl. by rewrite issued_app, E, app_nil_r.
  - destruct (sel_ret <? 0); simpl; rewrite ?Nat.sub_diag; [done|].
    pose proof (fire_wakers_trace (st_conn s) (fr ∩ rr) (fw ∩ rw)) as Ht.
    destruct (fire_wakers _ _ _) as [conn' tr']. simpl in *.
    by rewrite Ht, issued_fired, Nat.sub_diag.
Qed.

Lemma issued_run prog answers s :
  issued (run prog s answers).2 =
    seq (st_supply s) (st_supply (run prog s answers).1 - st_supply s) ∧
  (st_supply s ≤ st_supply (run prog s answers).1)%nat.
Proof.
  revert s. induction answers as [|a rest IH]; intros s; simpl.
  { by rewrite Nat.sub_diag. }
  destruct (issued_step prog s a) as [E1 L1].
  destruct (step prog s a) as [s1 t1]. simpl in *.
  destruct (IH s1) as [E2 L2].
  destruct (run prog s1 rest) as [s2 t2]. simpl in *.
  rewrite issued_app, E1, E2. split; [|lia].
  replace (st_supply s2 - st_supply s)%nat
    with ((st_supply s1 - st_supply s) + (st_supply s2 - st_supply s1))%nat by lia.
  rewrite seq_app. do 2 f_equal. lia.
Qed.

Lemma issued_main prog a answers :
  issued (main prog a answers).2 = seq 0 (st_supply (main prog a answers).1).
Proof.
  unfold main. destruct (setup_shape prog a) as (pc0 & sock & tr0 & -> & _ & Hi & _).
  destruct (issued_run prog answers
    {| st_pc := pc0;
       st_conn := {| fd := sock; read_waker := None; write_waker := None |};
       st_supply := 0 |}) as [E _].
  destruct (run prog _ answers) as [s1 tr1]. simpl in *.
  by rewrite issued_app, (issued_inert _ Hi), E, Nat.sub_0_r.
Qed.

(** X3: in every run of either program the waker handles are handed out
    once each; a handle is freed or fired at most once, and only one that
    was handed out and is still live (no double free, no free after fire,
    no fire after free); and at every moment of the run at most one handle
    per direction is live. *)
Theorem waker_handles_consumed_once (prog : program) (a : setup_answer)
    (answers : list answer) :
  let tr := (main prog a answers).2 in
  NoDup (issued tr) ∧ NoDup (consumed tr) ∧ consumed tr ⊆ issued tr ∧
  (∀ p w, (p ++ [EvWakerFree w]) `prefix_of` tr → is_Some (live_wakers p !! w)) ∧
  (∀ p, p `prefix_of` tr → at_most_one (live_wakers p)).
Proof.
  intros tr. subst tr.
  pose proof (issued_main prog a answers) as Hi.
  destruct (main prog a answers) as [s tr] eqn:E. simpl in *.
  destruct (main_safe _ _ _ _ _ E) as [Hsafe _].
  assert (NoDup (issued tr)) as Hnd by (rewrite Hi; apply NoDup_seq).
  destruct (consumed_once tr Hsafe Hnd) as (H1 & H2 & _).
  repeat split; try done.
  - intros p w Hp. exact (Hsafe p _ Hp).
  - intros p Hp. by apply (each_step_at_most_one ∅ tr).
Qed.
End HandleFacts.

(** ** What a run has released *)

Lemma polled_tasks_app t1 t2 :
  polled_tasks (t1 ++ t2) = (polled_tasks t1 + polled_tasks t2)%nat.
Proof. unfold polled_tasks. by rewrite List.filter_app, length_app. Qed.

Lemma neither_counts fn tr :
  Forall (λ e, neither fn e = true) tr →
  count_calls fn tr = O ∧ polled_tasks tr = O.
Proof.
  unfold count_calls, polled_tasks, neither.
  induction 1 as [|e tr He _ [IH1 IH2]]; [done|]. simpl.
  apply andb_true_iff in He as [H1 H2].
  apply negb_true_iff in H1, H2. by rewrite H1, H2.
Qed.

Lemma neither_free_if_set fn w : Forall (λ e, neither fn e = true) (free_if_set w).
Proof. destruct w; repeat constructor. Qed.

Lemma neither_print_each_header fn n :
  Forall (λ e, neither fn e = true) (print_each_header n).
Proof. by apply Forall_replicate. Qed.

Lemma neither_fired fn conn fr fw : Forall (λ e, neither fn e = true) (fired conn fr fw).
Proof. unfold fired. repeat case_match; repeat constructor. Qed.

Ltac neither_trace :=
  repeat first
    [ apply Forall_nil_2
    | apply Forall_cons_2; [reflexivity|]
    | apply neither_print_each_header
    | apply neither_free_if_set
    | assumption
    | apply Forall_app_2 ].

Lemma neither_try_addresses fn rp :
  fn ∈ ["fluxio_task_free"; "fluxio_executor_free"] →
  Forall (λ e, neither fn e = true) (try_addresses rp).2.
Proof.
  intros Hfn. induction rp as [|a rp IH]; simpl; [constructor|].
  destruct (try_addresses rp) as [r tr]. simpl in *.
  repeat (apply elem_of_cons in Hfn as [->|Hfn]); [| |by apply not_elem_of_nil in Hfn];
    repeat case_match; simpl; neither_trace.
Qed.

Lemma neither_setup fn prog a :
  fn ∈ ["fluxio_task_free"; "fluxio_executor_free"] →
  Forall (λ e, neither fn e = true) (setup prog a).2.
Proof.
  intros Hfn. unfold setup, connect_and_hookup, hookup, connect_to.
  pose proof (neither_try_addresses fn (gai_result a) Hfn) as Ht.
  destruct (try_addresses (gai_result a)) as [r tr]. simpl in *.
  repeat (apply elem_of_cons in Hfn as [->|Hfn]); [| |by apply not_elem_of_nil in Hfn];
    destruct prog; repeat case_match; simplify_eq/=; neither_trace.
Qed.

Section ReleaseFacts.
Context `{fluxio_h}.

Lemma neither_run_callbacks fn cbs conn supply :
  Forall (λ e, neither fn e = true) (run_callbacks cbs conn supply).2.
Proof.
  revert conn supply. induction cbs as [|c cbs IH]; intros conn supply; simpl;
    [constructor|].
  specialize (IH (cb_conn (call_cb conn supply c)) (cb_supply (call_cb conn supply c))).
  destruct (run_callbacks cbs _ _) as [[c1 s1] t1]. simpl in *.
  apply Forall_app_2; [|done].
  destruct c; simpl; unfold read_cb, write_cb; repeat case_match; simpl; neither_trace.
Qed.
End ReleaseFacts.

Lemma count_calls_free_if_set fn w : count_calls fn (free_if_set w) = O.
Proof. by destruct w. Qed.

Lemma count_calls_print_each_header fn n : count_calls fn (print_each_header n) = O.
Proof. exact (proj1 (neither_counts fn _ (neither_print_each_header fn n))). Qed.

Lemma polled_tasks_plain tr :
  Forall (λ e, is_plain e = true) tr → polled_tasks tr = O.
Proof.
  unfold polled_tasks. induction 1 as [|e l He _ IH]; [done|].
  destruct e; simpl in *; done.
Qed.

Lemma example_id_of_small u : 0 ≤ u ≤ 3 → example_id_of u = u.
Proof. intros Hu. unfold example_id_of. apply Z.mod_small. lia. Qed.

Lemma dispatch_frees prog conn t ctl conn' tr :
  dispatch prog conn t = (ctl, conn', tr) →
  polled_tasks tr = O ∧
  count_calls "fluxio_executor_free" tr =
    match ctl with Return status => if status =? 0 then 1%nat else O | _ => O end ∧
  (count_calls "fluxio_task_free" tr ≤ 1)%nat ∧
  (0 ≤ t_userdata t ≤ 3 → ctl = Break ∨ ctl = Return 0 →
   count_calls "fluxio_task_free" tr = 1%nat) ∧
  (ctl = Return 0 → read_waker conn' = None ∧ write_waker conn' = None).
Proof.
  intros Hd.
  assert (polled_tasks tr = O) as Hp.
  { pose proof (plain_dispatch prog conn t) as Hpl. rewrite Hd in Hpl.
    by apply polled_tasks_plain. }
  split; [done|]. clear Hp.
  destruct prog; simpl in Hd;
    unfold client_dispatch, upload_dispatch, free_conn_data, client_fail in Hd;
    cbv zeta in Hd;
    destruct (t_value_null t), (t_len_first t);
    repeat match type of Hd with
           | (if ?b then _ else _) = _ => destruct b eqn:?
           end;
    injection Hd as <- <- <-;
    count_calls;
    rewrite ?count_calls_print_each_header, ?count_calls_free_if_set; simpl;
    (split; [done|]); (split; [lia|]);
    (split; [|by intros [=]]);
    try (by intros _ [[=]|[=]]);
    try done;
    intros Hu _;
    rewrite (example_id_of_small _ Hu) in *;
    repeat match goal with
           | E : (_ =? _) = false |- _ => apply Z.eqb_neq in E
           end;
    unfold EXAMPLE_HANDSHAKE, EXAMPLE_SEND, EXAMPLE_RESP_BODY, EXAMPLE_NOT_SET in *; lia.
Qed.

Section ReleaseTheorems.
Context `{fluxio_h}.

Lemma step_released prog s a s' tr tr0 :
  count_calls "fluxio_executor_free" tr0 = returned_0 (st_pc s) →
  (st_pc s = Exited 0 → read_waker (st_conn s) = None ∧ write_waker (st_conn s) = None) →
  step prog s a = (s', tr) →
  count_calls "fluxio_executor_free" (tr0 ++ tr) = returned_0 (st_pc s') ∧
  (st_pc s' = Exited 0 → read_waker (st_conn s') = None ∧ write_waker (st_conn s') = None).
Proof.
  intros Hc Hs Hstep. unfold step in Hstep. rewrite count_calls_app.
  destruct (st_pc s) as [|fr fw|status|] eqn:Hpc, a as [cbs task|sel_ret rr rw];
    try (injection Hstep as <- <-; rewrite Hpc, count_calls_nil, Nat.add_0_r; by split).
  - pose proof (neither_run_callbacks "fluxio_executor_free" cbs (st_conn s) (st_supply s))
      as Hcb.
    destruct (run_callbacks cbs _ _) as [[conn1 supply1] tr_cb]. simpl in Hcb.
    apply neither_counts in Hcb as [Hcb _].
    destruct task as [t|].
    + destruct (dispatch prog conn1 t) as [[ctl conn2] tr_d] eqn:Ed.
      destruct (dispatch_frees _ _ _ _ _ _ Ed) as (_ & He & _ & _ & Hslots).
      injection Hstep as <- <-. simpl.
      rewrite Hc, count_calls_app, Hcb, count_calls_cons, He. simpl.
      destruct ctl as [|status|]; simpl; split; try done.
      intros [= ->]. by apply Hslots.
    + injection Hstep as <- <-. simpl.
      rewrite Hc, count_calls_app, Hcb. simpl. by split.
  - destruct (sel_ret <? 0).
    + injection Hstep as <- <-. simpl. rewrite Hc. by split.
    + pose proof (fire_wakers_trace (st_conn s) (fr ∩ rr) (fw ∩ rw)) as Ht.
      destruct (fire_wakers _ _ _) as [conn' tr']. simpl in Ht.
      injection Hstep as <- <-. simpl. rewrite Hc, Ht.
      rewrite (proj1 (neither_counts _ _ (neither_fired _ _ _ _))). by split.
Qed.

Lemma run_released prog answers s s' tr tr0 :
  count_calls "fluxio_executor_free" tr0 = returned_0 (st_pc s) →
  (st_pc s = Exited 0 → read_waker (st_conn s) = None ∧ write_waker (st_conn s) = None) →
  run prog s answers = (s', tr) →
  count_calls "fluxio_executor_free" (tr0 ++ tr) = returned_0 (st_pc s') ∧
  (st_pc s' = Exited 0 → read_waker (st_conn s') = None ∧ write_waker (st_conn s') = None).
Proof.
  revert s s' tr tr0. induction answers as [|a rest IH]; intros s s' tr tr0 H1 H2 Hrun;
    simpl in Hrun.
  - injection Hrun as <- <-. by rewrite app_nil_r.
  - destruct (step prog s a) as [s1 t1] eqn:E1.
    destruct (run prog s1 rest) as [s2 t2] eqn:E2.
    injection Hrun as <- <-.
    destruct (step_released _ _ _ _ _ _ H1 H2 E1) as [H1' H2'].
    rewrite app_assoc. by apply (IH s1).
Qed.

Lemma main_released prog a answers :
  count_calls "fluxio_executor_free" (main prog a answers).2 =
    returned_0 (st_pc (main prog a answers).1) ∧
  (st_pc (main prog a answers).1 = Exited 0 →
   read_waker (st_conn (main prog a answers).1) = None ∧
   write_waker (st_conn (main prog a answers).1) = None).
Proof.
  unfold main.
  pose proof (neither_setup "fluxio_executor_free" prog a ltac:(set_solver)) as Hn.
  destruct (setup_shape prog a) as (pc0 & sock & tr0 & E0 & Hpc & _). rewrite E0 in *.
  simpl in Hn. apply neither_counts in Hn as [Hn _].
  destruct (run prog _ answers) as [s1 tr1] eqn:E1. simpl.
  apply (run_released _ _ _ _ _ tr0) in E1; [done | | done].
  simpl. rewrite Hn. by destruct Hpc as [-> | ->].
Qed.

(** X4: a run of either program that returns 0 leaves nothing registered:
    no waker is live, every handle that was handed out has been freed or
    fired exactly once, both slots are empty, and the executor has been
    freed exactly once.  In every other state of a run the executor has not
    been freed. *)
Theorem success_exit_releases_all (prog : program) (a : setup_answer)
    (answers : list answer) :
  let s := (main prog a answers).1 in
  let tr := (main prog a answers).2 in
  (st_pc s = Exited 0 →
     live_wakers tr = ∅ ∧ consumed tr ≡ₚ issued tr ∧
     read_waker (st_conn s) = None ∧ write_waker (st_conn s) = None ∧
     count_calls "fluxio_executor_free" tr = 1%nat) ∧
  (st_pc s ≠ Exited 0 → count_calls "fluxio_executor_free" tr = O).
Proof.
  intros s tr. subst s tr.
  pose proof (issued_main prog a answers) as Hi.
  pose proof (main_released prog a answers) as [Hc Hslots].
  destruct (main prog a answers) as [s tr] eqn:E. simpl in *.
  split.
  - intros Hpc. destruct (Hslots Hpc) as [Hr Hw].
    destruct (main_safe _ _ _ _ _ E) as [Hsafe [[Hslot _] _]].
    assert (NoDup (issued tr)) as Hnd by (rewrite Hi; apply NoDup_seq).
    destruct (consumed_once tr Hsafe Hnd) as (H1 & H2 & H3).
    assert (live_wakers tr = ∅) as Hlive.
    { apply map_empty. intros w. destruct (live_wakers tr !! w) as [d|] eqn:Hl; [|done].
      apply Hslot in Hl. destruct d; simpl in Hl; congruence. }
    repeat split; try done.
    + apply NoDup_Permutation; [done | done |]. intros w. split; [apply H2|].
      intros Hw'. destruct (decide (w ∈ consumed tr)) as [|Hn]; [done|].
      assert (is_Some (live_wakers tr !! w)) as [d Hd] by (by apply H3).
      by rewrite Hlive, lookup_empty in Hd.
    + by rewrite Hc, Hpc.
  - intros Hpc. rewrite Hc. destruct (st_pc s) as [| |status|]; simpl; try done.
    destruct (Z.eqb_spec status 0) as [->|]; done.
Qed.
End ReleaseTheorems.

Ltac counts_lia := unfold count_calls, polled_tasks in *; simpl in *; lia.

Section TaskTheorems.
Context `{fluxio_h}.

Lemma step_tasks prog s a s' tr tr0 :
  tag_of_enum a →
  (count_calls "fluxio_task_free" tr0 ≤ polled_tasks tr0 ≤
     count_calls "fluxio_task_free" tr0 + 1)%nat →
  (not_failed (st_pc s) = true → count_calls "fluxio_task_free" tr0 = polled_tasks tr0) →
  step prog s a = (s', tr) →
  (count_calls "fluxio_task_free" (tr0 ++ tr) ≤ polled_tasks (tr0 ++ tr) ≤
     count_calls "fluxio_task_free" (tr0 ++ tr) + 1)%nat ∧
  (not_failed (st_pc s') = true →
   count_calls "fluxio_task_free" (tr0 ++ tr) = polled_tasks (tr0 ++ tr)).
Proof.
  intros Htag Hb Heq Hstep. unfold step in Hstep.
  rewrite count_calls_app, polled_tasks_app.
  destruct (st_pc s) as [|fr fw|status|] eqn:Hpc, a as [cbs task|sel_ret rr rw];
    try (injection Hstep as <- <-; rewrite Hpc; simpl;
         rewrite count_calls_nil, !Nat.add_0_r; by split).
  - pose proof (neither_run_callbacks "fluxio_task_free" cbs (st_conn s) (st_supply s))
      as Hcb.
    destruct (run_callbacks cbs _ _) as [[conn1 supply1] tr_cb]. simpl in Hcb.
    apply neither_counts in Hcb as [Hcb Hcb'].
    specialize (Heq eq_refl).
    destruct task as [t|].
    + destruct (dispatch prog conn1 t) as [[ctl conn2] tr_d] eqn:Ed.
      destruct (dispatch_frees _ _ _ _ _ _ Ed) as (Hp & _ & Hle & Hone & _).
      injection Hstep as <- <-. simpl in *.
      rewrite count_calls_app, polled_tasks_app, Hcb, Hcb', count_calls_cons.
      change (EvExecutorPoll (Some (t_userdata t, t_type t)) :: tr_d)
        with ([EvExecutorPoll (Some (t_userdata t, t_type t))] ++ tr_d).
      rewrite polled_tasks_app, Hp. simpl.
      change (polled_tasks [EvExecutorPoll (Some (t_userdata t, t_type t))]) with 1%nat.
      split; [counts_lia|]. intros Hnf.
      rewrite (Hone Htag); [counts_lia|].
      destruct ctl as [|status|]; simpl in Hnf; [by left | | done].
      right. f_equal. by apply Z.eqb_eq.
    + injection Hstep as <- <-. simpl.
      rewrite count_calls_app, polled_tasks_app, Hcb, Hcb'. simpl.
      change (polled_tasks [EvExecutorPoll None; _]) with O.
      change (count_calls "fluxio_task_free" [EvExecutorPoll None; _]) with O.
      split; [counts_lia|]. intros _. counts_lia.
  - specialize (Heq eq_refl). destruct (sel_ret <? 0).
    + injection Hstep as <- <-. simpl. split; [counts_lia | done].
    + pose proof (fire_wakers_trace (st_conn s) (fr ∩ rr) (fw ∩ rw)) as Ht.
      destruct (fire_wakers _ _ _) as [conn' tr']. simpl in Ht.
      injection Hstep as <- <-. simpl. rewrite Ht.
      destruct (neither_counts _ _ (neither_fired "fluxio_task_free" (st_conn s)
                                      (fr ∩ rr) (fw ∩ rw))) as [-> ->].
      split; [counts_lia|]. intros _. counts_lia.
Qed.

Lemma run_tasks prog answers s s' tr tr0 :
  Forall tag_of_enum answers →
  (count_calls "fluxio_task_free" tr0 ≤ polled_tasks tr0 ≤
     count_calls "fluxio_task_free" tr0 + 1)%nat →
  (not_failed (st_pc s) = true → count_calls "fluxio_task_free" tr0 = polled_tasks tr0) →
  run prog s answers = (s', tr) →
  (count_calls "fluxio_task_free" (tr0 ++ tr) ≤ polled_tasks (tr0 ++ tr) ≤
     count_calls "fluxio_task_free" (tr0 ++ tr) + 1)%nat ∧
  (not_failed (st_pc s') = true →
   count_calls "fluxio_task_free" (tr0 ++ tr) = polled_tasks (tr0 ++ tr)).
Proof.
  revert s s' tr tr0. induction answers as [|a rest IH];
    intros s s' tr tr0 Htags H1 H2 Hrun; simpl in Hrun.
  - injection Hrun as <- <-. by rewrite app_nil_r.
  - apply Forall_cons_1 in Htags as [Ha Hrest].
    destruct (step prog s a) as [s1 t1] eqn:E1.
    destruct (run prog s1 rest) as [s2 t2] eqn:E2.
    injection Hrun as <- <-.
    destruct (step_tasks _ _ _ _ _ _ Ha H1 H2 E1) as [H1' H2'].
    rewrite app_assoc. by apply (IH s1).
Qed.

(** X5: in a run of either program in which every polled task carries a
    tag of [example_id], every polled task has been freed exactly once as
    long as the program has not failed (it is in its loop or has returned
    0); and in any state at most one polled task, the last, is not freed. *)
Theorem polled_tasks_freed_once (prog : program) (a : setup_answer)
    (answers : list answer) :
  Forall tag_of_enum answers →
  let s := (main prog a answers).1 in
  let tr := (main prog a answers).2 in
  (count_calls "fluxio_task_free" tr ≤ polled_tasks tr ≤
     count_calls "fluxio_task_free" tr + 1)%nat ∧
  (not_failed (st_pc s) = true → count_calls "fluxio_task_free" tr = polled_tasks tr).
Proof.
  intros Htags s tr. subst s tr. unfold main.
  pose proof (neither_setup "fluxio_task_free" prog a ltac:(set_solver)) as Hn.
  destruct (setup_shape prog a) as (pc0 & sock & tr0 & E0 & Hpc & _). rewrite E0 in *.
  simpl in Hn. apply neither_counts in Hn as [Hn Hn'].
  destruct (run prog _ answers) as [s1 tr1] eqn:E1. simpl.
  apply (run_tasks _ _ _ _ _ tr0 Htags) in E1; [done | lia |].
  intros _. lia.
Qed.
End TaskTheorems.

(** ** The order of the protocol *)

Lemma chain_from_app prog before t1 t2 :
  chain_from prog before (t1 ++ t2) ↔
  chain_from prog before t1 ∧ chain_from prog (last_poll_from before t1) t2.
Proof.
  revert before. induction t1 as [|e t1 IH]; intros before; simpl; [tauto|].
  destruct e; rewrite ?IH; tauto.
Qed.

Lemma chain_from_split prog before pre tag post :
  chain_from prog before (pre ++ EvSetUserdata tag :: post) →
  entitles prog (last_poll_from before pre) tag.
Proof. intros Hc. apply chain_from_app in Hc as [_ Hc]. simpl in Hc. tauto. Qed.

Lemma last_poll_from_app before t1 t2 :
  last_poll_from before (t1 ++ t2) = last_poll_from (last_poll_from before t1) t2.
Proof.
  revert before. induction t1 as [|e t1 IH]; intros before; simpl; [done|].
  by destruct e.
Qed.

Lemma last_poll_from_plain before tr :
  Forall (λ e, is_plain e = true) tr → last_poll_from before tr = before.
Proof. induction 1 as [|e tr He _ IH]; simpl; [done|]. by destruct e. Qed.

Lemma chain_from_plain prog before tr :
  Forall (λ e, is_plain e = true) tr →
  (∀ tag, tag ∈ tags tr → entitles prog before tag) →
  chain_from prog before tr.
Proof.
  induction 1 as [|e tr He _ IH]; intros Htags; simpl; [done|].
  destruct e; try done; try (apply IH; intros tag Htag; apply Htags; by simpl).
  split.
  - apply Htags. unfold tags. simpl. apply list_elem_of_here.
  - apply IH. intros tag' Htag. apply Htags. unfold tags. simpl.
    by apply list_elem_of_further.
Qed.

Lemma tags_app t1 t2 : tags (t1 ++ t2) = tags t1 ++ tags t2.
Proof. apply omap_app. Qed.

Lemma tags_print_each_header n : tags (print_each_header n) = [].
Proof. unfold print_each_header. induction n; simpl; done. Qed.

Lemma tags_free_if_set w : tags (free_if_set w) = [].
Proof. by destruct w. Qed.

Lemma dispatch_tags prog conn t ctl conn' tr tag :
  dispatch prog conn t = (ctl, conn', tr) →
  tag ∈ tags tr →
  entitles prog (Some (Some (t_userdata t, t_type t))) tag.
Proof.
  intros Hd.
  destruct prog; simpl in Hd;
    unfold client_dispatch, upload_dispatch, free_conn_data, client_fail in Hd;
    cbv zeta in Hd;
    destruct (t_value_null t), (t_len_first t);
    repeat match type of Hd with
           | (if ?b then _ else _) = _ => destruct b eqn:?
           end;
    injection Hd as <- <- <-;
    change (tags ?l) with (omap (λ e, match e with EvSetUserdata tag => Some tag
                                              | _ => None end) l);
    simpl; rewrite ?omap_app; simpl;
    fold (tags (print_each_header (t_headers t)));
    fold (tags (free_if_set (read_waker conn)));
    fold (tags (free_if_set (write_waker conn)));
    rewrite ?tags_print_each_header, ?tags_free_if_set; simpl;
    intros Hin;
    repeat (apply elem_of_cons in Hin as [->|Hin]);
    try (by apply not_elem_of_nil in Hin);
    repeat match goal with
           | E : (_ =? _) = true |- _ => apply Z.eqb_eq in E
           end;
    destruct (t_type t); try discriminate; simpl; auto 10.
Qed.

Lemma setup_calls prog a : Forall (λ e, is_setup_call e = true) (setup prog a).2.
Proof.
  assert (Forall (λ e, is_setup_call e = true) (try_addresses (gai_result a)).2) as Hp.
  { induction (gai_result a) as [|x rp IH]; simpl; [constructor|].
    destruct (try_addresses rp) as [r tr]; simpl in IH.
    repeat case_match; simpl; repeat (constructor; [done|]); done. }
  unfold setup, connect_and_hookup, hookup, connect_to.
  destruct (try_addresses (gai_result a)) as [r tr]. simpl in Hp.
  destruct prog; repeat case_match; simplify_eq/=;
    repeat first [ apply Forall_nil_2 | apply Forall_cons_2; [reflexivity|]
                 | assumption | apply Forall_app_2 ].
Qed.

Lemma setup_chain prog a : chain_from prog None (setup prog a).2 ∧
                           last_poll_from None (setup prog a).2 = None.
Proof.
  pose proof (setup_calls prog a) as Hs.
  assert (Forall (λ e, is_plain e = true) (setup prog a).2) as Hp.
  { eapply Forall_impl; [exact Hs|]. by intros []. }
  split; [|by apply last_poll_from_plain].
  apply chain_from_plain; [done|].
  intros tag Htag. simpl. unfold tags in Htag.
  apply list_elem_of_omap in Htag as (e & He & Htag).
  rewrite Forall_forall in Hs. specialize (Hs e He).
  destruct e; try done. simpl in *. injection Htag as ->. by apply Z.eqb_eq.
Qed.

Section ChainFacts.
Context `{fluxio_h}.

Lemma untagged_run_callbacks prog before cbs conn supply :
  chain_from prog before (run_callbacks cbs conn supply).2 ∧
  last_poll_from before (run_callbacks cbs conn supply).2 = before.
Proof.
  revert conn supply. induction cbs as [|c cbs IH]; intros conn supply; simpl; [done|].
  specialize (IH (cb_conn (call_cb conn supply c)) (cb_supply (call_cb conn supply c))).
  destruct (run_callbacks cbs _ _) as [[c1 s1] t1]. simpl in *.
  destruct IH as [IH1 IH2].
  assert (chain_from prog before (cb_trace (call_cb conn supply c)) ∧
          last_poll_from before (cb_trace (call_cb conn supply c)) = before) as [Hc Hl].
  { destruct c; simpl; unfold read_cb, write_cb, fluxio_context_waker;
      repeat case_match; simpl; try done;
      destruct (read_waker conn), (write_waker conn); simpl; done. }
  split.
  - apply chain_from_app. by rewrite Hl.
  - by rewrite last_poll_from_app, Hl.
Qed.

Lemma step_chain prog s a before : chain_from prog before (step prog s a).2.
Proof.
  unfold step.
  destruct (st_pc s) as [|fr fw|status|], a as [cbs task|sel_ret rr rw]; simpl; try done.
  - destruct (untagged_run_callbacks prog before cbs (st_conn s) (st_supply s)) as [Hc Hl].
    destruct (run_callbacks cbs _ _) as [[conn1 supply1] tr_cb]. simpl in *.
    destruct task as [t|].
    + pose proof (plain_dispatch prog conn1 t) as Hp.
      destruct (dispatch prog conn1 t) as [[ctl conn2] tr_d] eqn:Ed. simpl in *.
      apply chain_from_app. split; [done|]. simpl.
      apply chain_from_plain; [done|].
      intros tag. by apply (dispatch_tags _ _ _ _ _ _ _ Ed).
    + simpl. apply chain_from_app. by split.
  - destruct (sel_ret <? 0); simpl; [done|].
    pose proof (fire_wakers_trace (st_conn s) (fr ∩ rr) (fw ∩ rw)) as Ht.
    destruct (fire_wakers _ _ _) as [conn' tr']. simpl in *. rewrite Ht.
    unfold fired. by repeat case_match.
Qed.

Lemma run_chain prog answers s before : chain_from prog before (run prog s answers).2.
Proof.
  revert s before. induction answers as [|a rest IH]; intros s before; simpl; [done|].
  pose proof (step_chain prog s a before) as H1.
  destruct (step prog s a) as [s1 t1]. simpl in H1.
  specialize (IH s1 (last_poll_from before t1)).
  destruct (run prog s1 rest) as [s2 t2]. simpl in *.
  apply chain_from_app. by split.
Qed.

(** X6: in every run of either program a task is tagged only on the
    completion that calls for it: the handshake task before the first poll;
    a send task directly after a poll returned a handshake task with a
    client connection; a response-body task directly after a poll returned
    a send task with a response or, in upload.c, a response-body task with
    a chunk.  After a poll that returned no task nothing is tagged. *)
Theorem tags_follow_the_protocol (prog : program) (a : setup_answer)
    (answers : list answer) (pre post : list event) (tag : Z) :
  (main prog a answers).2 = pre ++ EvSetUserdata tag :: post →
  entitles prog (last_poll pre) tag.
Proof.
  intros Heq. apply (chain_from_split prog None pre tag post). rewrite <- Heq.
  unfold main. destruct (setup_chain prog a) as [Hc Hl].
  destruct (setup prog a) as [s0 tr0]. simpl in *.
  pose proof (run_chain prog answers s0 None) as Hr.
  destruct (run prog s0 answers) as [s1 tr1]. simpl in *.
  apply chain_from_app. split; [done|]. by rewrite Hl.
Qed.
End ChainFacts.

(** ** The upload body producer on a source that reads short or fails *)

Section SourceFacts.
Context `{fluxio_h}.

(** X7: whatever the reads of the upload source do (deliver fewer bytes
    than asked for, or fail), with a scratch buffer of [B > 0] bytes the
    chunks the producer hands over are, in order, a prefix of the source:
    nothing is skipped, repeated or reordered; each chunk has between 1 and
    [B] bytes.  If no read fails and the engine polls long enough, the polls
    are all ready, end with exactly one [NULL] chunk, and the chunks make up
    the whole source. *)
Theorem upload_chunks_are_a_prefix (data buf : list Byte.byte) (script : list Z)
    (fd : Z) (B fuel : nat) :
  (0 < B)%nat →
  let rs := engine_pull_body source_read fuel
              {| src_data := data; src_pos := 0; src_script := script |}
              {| upload_fd := fd; upload_buf := buf; upload_len := B |} in
  concat (chunks_of rs) `prefix_of` data ∧
  Forall (λ c, c ≠ [] ∧ (length c ≤ B)%nat) (chunks_of rs) ∧
  (Forall (λ z, 0 ≤ z) script → (length data < fuel)%nat →
     poll_chunk <$> rs = (Some <$> chunks_of rs) ++ [None] ∧
     concat (chunks_of rs) = data ∧
     Forall (λ r, poll_ret r = FLUXIO_POLL_READY) rs).
Proof.
  intros HB.
  exact (pull_source B fd HB fuel
           {| src_data := data; src_pos := 0; src_script := script |} buf).
Qed.
End SourceFacts.

(** ** The adapter over a sequence of callbacks *)

Section SlotFacts.
Context `{fluxio_h}.

Lemma call_cb_slots conn supply c :
  let r := call_cb conn supply c in
  fd (cb_conn r) = fd conn ∧
  (∀ d, slot (cb_conn r) d =
        match last (omap (handle_for d) (cb_trace r)) with
        | Some w => Some w
        | None => slot conn d
        end) ∧
  issued (cb_trace r) ++ held conn ≡ₚ consumed (cb_trace r) ++ held (cb_conn r) ∧
  length (filter (λ e, is_transfer e = true) (cb_trace r)) = 1%nat ∧
  cb_supply r = (supply + length (issued (cb_trace r)))%nat.
Proof.
  destruct conn as [sock [r0|] [w0|]];
    destruct c as [n ret errno|n ret errno]; cbv zeta; unfold call_cb, read_cb, write_cb;
    destruct (0 <=? ret); try destruct (negb (errno =? EAGAIN));
    unfold fluxio_context_waker, held, issued, consumed; simpl;
    (split; [done|]; split; [by intros []|]; split; [|split; [done | lia]]);
    try done; try apply Permutation_swap.
  etrans; [apply Permutation_swap|]. etrans; [apply perm_skip, Permutation_swap|].
  apply Permutation_swap.
Qed.

(** X8: over any sequence of invocations of [read_cb] and [write_cb], from
    any connection: the descriptor is kept; each waker slot ends holding the
    handle most recently obtained for its direction, or what it held before
    if none was obtained; the handles obtained together with those held at
    the start are exactly the handles freed together with those held at the
    end, so the callbacks free what they replace and nothing else; every
    invocation makes one transfer on the socket, none is retried. *)
Theorem adapter_slots_hold_latest_handle (cbs : list io_call) (conn : conn_data)
    (supply : nat) :
  let r := run_callbacks cbs conn supply in
  let conn' := r.1.1 in
  let tr := r.2 in
  fd conn' = fd conn ∧
  (∀ d, slot conn' d =
        match last (omap (handle_for d) tr) with
        | Some w => Some w
        | None => slot conn d
        end) ∧
  issued tr ++ held conn ≡ₚ consumed tr ++ held conn' ∧
  length (filter (λ e, is_transfer e = true) tr) = length cbs ∧
  r.1.2 = (supply + length (issued tr))%nat.
Proof.
  revert conn supply. induction cbs as [|c cbs IH]; intros conn supply.
  { simpl. split; [done|]. split; [done|]. split; [done|]. split; [done | lia]. }
  cbv zeta. simpl.
  destruct (call_cb_slots conn supply c) as (Hfd & Hslot & Hperm & Hone & Hsup).
  specialize (IH (cb_conn (call_cb conn supply c)) (cb_supply (call_cb conn supply c))).
  destruct (run_callbacks cbs _ _) as [[conn' supply'] tr]. simpl in *.
  destruct IH as (IHfd & IHslot & IHperm & IHlen & IHsup).
  split; [|split; [|split; [|split]]].
  - congruence.
  - intros d. rewrite omap_app, last_app, IHslot.
    destruct (last (omap (handle_for d) tr)); [done | apply Hslot].
  - rewrite issued_app, consumed_app.
    set (i1 := issued (cb_trace _)) in *. set (c1 := consumed (cb_trace _)) in *.
    rewrite <- (assoc_L (++) c1), <- IHperm.
    rewrite (Permutation_app_comm i1), <- (assoc_L (++) (issued tr)), Hperm.
    by rewrite !(assoc_L (++)), (Permutation_app_comm (issued tr) c1).
  - rewrite filter_app, length_app. simpl in Hone. lia.
  - rewrite issued_app, length_app. lia.
Qed.
End SlotFacts.

(** ** The set-up part of [main] *)

Lemma engine_free_count fn tr :
  String.prefix "fluxio_" fn = true ∨ fn = "malloc" →
  Forall (λ e, engine_free e = true) tr → count_calls fn tr = O.
Proof.
  intros Hfn. unfold count_calls. induction 1 as [|e tr He _ IH]; [done|]. simpl.
  destruct e; simpl in *; try done.
  destruct (bool_decide_reflect (fn0 = fn)) as [->|_]; [|done].
  apply andb_true_iff in He as [H1 H2]. apply negb_true_iff in H1, H2.
  destruct Hfn as [Hp| ->]; [congruence|]. done.
Qed.

Lemma engine_free_try_addresses rp :
  Forall (λ e, engine_free e = true) (try_addresses rp).2.
Proof.
  induction rp as [|x rp IH]; simpl; [constructor|].
  destruct (try_addresses rp) as [r tr]; simpl in IH.
  repeat case_match; simpl; repeat (constructor; [done|]); done.
Qed.

Section SetupFacts.
Context `{fluxio_h}.

(** X9: the set-up of either [main] is all or nothing.  If the outside
    lets it through, the program enters the loop on the socket of the first
    address that connects, with one executor, one I/O object and one task
    pushed, tagged as the handshake.  If not, [main] returns 1 whatever the
    engine would have answered, and up to there it has made no call into the
    engine and no allocation. *)
Theorem setup_all_or_nothing (prog : program) (a : setup_answer) (answers : list answer) :
  let s0 := (setup prog a).1 in
  let tr0 := (setup prog a).2 in
  if reaches_loop prog a then
    st_pc s0 = Drain ∧
    Some (fd (st_conn s0)) = ai_socket <$> List.find connects (gai_result a) ∧
    tags tr0 = [EXAMPLE_HANDSHAKE] ∧
    count_calls "fluxio_executor_new" tr0 = 1%nat ∧
    count_calls "fluxio_io_new" tr0 = 1%nat ∧
    count_calls "fluxio_executor_push" tr0 = 1%nat
  else
    main prog a answers = (exited 1, tr0) ∧
    Forall (λ e, engine_free e = true) tr0 ∧
    count_calls "malloc" tr0 = O.
Proof.
  cbv zeta.
  assert (∀ tr, (setup prog a) = (exited 1, tr) → main prog a answers = (exited 1, tr)) as Hmain.
  { intros tr E. unfold main. rewrite E.
    rewrite (run_exited prog (exited 1) answers 1 eq_refl). by rewrite app_nil_r. }
  revert Hmain.
  unfold reaches_loop, setup, connect_and_hookup, connect_to, hookup.
  pose proof (try_addresses_find (gai_result a)) as Hf.
  pose proof (engine_free_try_addresses (gai_result a)) as Hq.
  destruct (try_addresses (gai_result a)) as [r tr]. simpl in Hf, Hq.
  pose proof (engine_free_count "malloc" tr (or_intror eq_refl) Hq) as Hm.
  pose proof (engine_free_count "fluxio_executor_new" tr (or_introl eq_refl) Hq) as H1.
  pose proof (engine_free_count "fluxio_io_new" tr (or_introl eq_refl) Hq) as H2.
  pose proof (engine_free_count "fluxio_executor_push" tr (or_introl eq_refl) Hq) as H3.
  assert (tags tr = []) as Ht.
  { apply omap_all_None. eapply Forall_impl; [exact Hq|]. by intros []. }
  rewrite !Z.ltb_antisym.
  destruct (List.find connects (gai_result a)) as [x|]; simpl in Hf; subst r;
    destruct prog; simpl; rewrite ?Z.ltb_antisym; simpl;
    try destruct (file_given a); simpl; rewrite ?Z.ltb_antisym; simpl;
    try destruct (0 <=? open_ret a); simpl; rewrite ?Z.ltb_antisym; simpl;
    destruct (gai_ret a =? 0); simpl; rewrite ?Z.ltb_antisym; simpl;
    try destruct (0 <=? ai_socket x); simpl;
    try destruct (fcntl_ret a =? 0); simpl; intros Hmain.
  all: try (split; [by apply Hmain|]; split;
            [repeat first [ apply Forall_nil_2 | apply Forall_cons_2; [reflexivity|]
                          | assumption | apply Forall_app_2 ]
            | count_calls; unfold count_calls in *; lia]).
  all: split; [done|]; split; [done|]; split;
         [rewrite ?tags_app; simpl; rewrite ?tags_app, Ht; done|];
       repeat split; count_calls; unfold count_calls in *; lia.
Qed.
End SetupFacts.

(** ** The assertions of the dispatcher *)

Lemma dispatch_assert prog conn t :
  ((dispatch prog conn t).1.1 = AssertFailed ↔
     expected prog (t_userdata t) (t_type t) = false) ∧
  ((dispatch prog conn t).1.1 = AssertFailed →
     Forall (λ e, is_task_query e = true) (dispatch prog conn t).2).
Proof.
  destruct prog; simpl; unfold client_dispatch, upload_dispatch, expected, free_conn_data;
    cbv zeta;
    destruct (example_id_of (t_userdata t) =? EXAMPLE_HANDSHAKE),
             (example_id_of (t_userdata t) =? EXAMPLE_SEND),
             (example_id_of (t_userdata t) =? EXAMPLE_RESP_BODY),
             (example_id_of (t_userdata t) =? EXAMPLE_NOT_SET),
             (t_type t); simpl;
    repeat case_match; simpl;
    (split; [split; intros; congruence | intros; try congruence; by repeat constructor]).
Qed.

Lemma expected_plain prog tr :
  Forall (λ e, is_polled_task e = false) tr → Forall (λ e, unexpected prog e = false) tr.
Proof. intros Hf. eapply Forall_impl; [exact Hf|]. by intros [| | | | |[[]|]| | | |]. Qed.

Lemma unpolled_neither fn tr :
  Forall (λ e, neither fn e = true) tr → Forall (λ e, is_polled_task e = false) tr.
Proof.
  intros Hf. eapply Forall_impl; [exact Hf|]. intros e He. unfold neither in He.
  apply andb_true_iff in He as [_ He]. by apply negb_true_iff in He.
Qed.

Lemma unpolled_plain tr :
  Forall (λ e, is_plain e = true) tr → Forall (λ e, is_polled_task e = false) tr.
Proof. intros Hf. eapply Forall_impl; [exact Hf|]. by intros []. Qed.

Section AssertFacts.
Context `{fluxio_h}.

Lemma run_aborted prog s answers :
  st_pc s = Aborted → run prog s answers = (s, []).
Proof.
  intros Hpc. induction answers as [|a rest IH]; simpl; [done|].
  unfold step. rewrite Hpc. rewrite IH. by destruct a.
Qed.

Lemma step_assert prog s a tr0 :
  st_pc s ≠ Aborted →
  Forall (λ e, unexpected prog e = false) tr0 →
  assert_trace prog (st_pc (step prog s a).1) (tr0 ++ (step prog s a).2) ∧
  (expected_answer prog a → st_pc (step prog s a).1 ≠ Aborted).
Proof.
  intros Hpc H0. unfold step.
  assert (∀ p, p ≠ Aborted → assert_trace prog p tr0) as Hkeep by (by intros []).
  destruct (st_pc s) as [|fr fw|status|] eqn:Es, a as [cbs task|sel_ret rr rw];
    simpl; rewrite ?Es, ?app_nil_r; try (split; [by apply Hkeep | done]).
  - pose proof (neither_run_callbacks "" cbs (st_conn s) (st_supply s)) as Hcb.
    destruct (run_callbacks cbs _ _) as [[conn1 supply1] tr_cb]. simpl in Hcb.
    apply unpolled_neither, (expected_plain prog) in Hcb.
    destruct task as [t|]; simpl.
    + destruct (dispatch_assert prog conn1 t) as [Hiff Hq].
      pose proof (plain_dispatch prog conn1 t) as Hpl.
      apply unpolled_plain, (expected_plain prog) in Hpl.
      destruct (dispatch prog conn1 t) as [[ctl conn2] tr_d]. simpl in *.
      destruct ctl as [|status|]; simpl.
      * split; [|done]. apply Forall_app_2; [done|]. apply Forall_app_2; [done|].
        constructor; [|done]. simpl. apply negb_false_iff.
        destruct (expected prog _ _); [done|].
        destruct Hiff as [_ Hiff]. by specialize (Hiff eq_refl).
      * split; [|done]. apply Forall_app_2; [done|]. apply Forall_app_2; [done|].
        constructor; [|done]. simpl. apply negb_false_iff.
        destruct (expected prog _ _); [done|].
        destruct Hiff as [_ Hiff]. by specialize (Hiff eq_refl).
      * split.
        -- exists (tr0 ++ tr_cb), (t_userdata t), (t_type t), tr_d.
           split; [by rewrite <- app_assoc|]. split; [by apply Hiff|].
           split; [by apply Forall_app_2 | by apply Hq].
        -- intros He. destruct Hiff as [Hiff _]. specialize (Hiff eq_refl). congruence.
    + split; [|done]. apply Forall_app_2; [done|]. apply Forall_app_2; [done|].
      by repeat constructor.
  - destruct (sel_ret <? 0); simpl.
    + split; [|done]. apply Forall_app_2; [done | by repeat constructor].
    + pose proof (fire_wakers_trace (st_conn s) (fr ∩ rr) (fw ∩ rw)) as Ht.
      destruct (fire_wakers _ _ _) as [conn' tr']. simpl in *. subst tr'.
      split; [|done]. apply Forall_app_2; [done|].
      apply (expected_plain prog), (unpolled_neither ""), neither_fired.
Qed.

Lemma run_assert prog answers s tr0 :
  assert_trace prog (st_pc s) tr0 →
  assert_trace prog (st_pc (run prog s answers).1) (tr0 ++ (run prog s answers).2) ∧
  (st_pc s ≠ Aborted → Forall (expected_answer prog) answers →
   st_pc (run prog s answers).1 ≠ Aborted).
Proof.
  revert s tr0. induction answers as [|a rest IH]; intros s tr0 Hinv; simpl.
  { rewrite app_nil_r. by split. }
  assert (st_pc s = Aborted ∨ st_pc s ≠ Aborted) as [Hab|Hab]
    by (destruct (st_pc s); auto).
  { pose proof (run_aborted prog s (a :: rest) Hab) as E. simpl in E. rewrite E.
    simpl. rewrite app_nil_r. by split. }
  assert (Forall (λ e, unexpected prog e = false) tr0) as H0.
  { destruct (st_pc s); done. }
  destruct (step_assert prog s a tr0 Hab H0) as [Hs1 Hs2].
  destruct (step prog s a) as [s1 t1]. simpl in *.
  destruct (IH s1 (tr0 ++ t1) Hs1) as [IH1 IH2].
  destruct (run prog s1 rest) as [s2 t2]. simpl in *.
  rewrite app_assoc. split; [done|].
  intros _ [Ha Hrest]%Forall_cons_1. by apply IH2; [apply Hs2|].
Qed.

(** X10: an [assert] of either program fails on the first completion whose
    type is not the one its tag stands for, and on nothing else: a run that
    ended in a failed assertion shows exactly one such poll, followed only
    by queries of that task; any other run shows none.  client.c so rejects
    a chunk for the response-body tag, which upload.c accepts.  With an
    engine that hands out expected completions only, no assertion fails. *)
Theorem assert_fails_on_first_unexpected_completion (prog : program) (a : setup_answer)
    (answers : list answer) :
  let s := (main prog a answers).1 in
  let tr := (main prog a answers).2 in
  assert_trace prog (st_pc s) tr ∧
  (Forall (expected_answer prog) answers → st_pc s ≠ Aborted) ∧
  (expected Client EXAMPLE_RESP_BODY FLUXIO_TASK_BUF = false ∧
   expected Upload EXAMPLE_RESP_BODY FLUXIO_TASK_BUF = true).
Proof.
  cbv zeta. unfold main.
  pose proof (setup_calls prog a) as Hs.
  destruct (setup_shape prog a) as (pc0 & sock & tr0 & E0 & Hpc & _). rewrite E0 in *.
  simpl in Hs.
  assert (Forall (λ e, unexpected prog e = false) tr0) as H0.
  { apply expected_plain. eapply Forall_impl; [exact Hs|]. by intros []. }
  match goal with |- context [run prog ?s0 answers] =>
    destruct (run_assert prog answers s0 tr0) as [H1 H2] end.
  { simpl. by destruct Hpc as [-> | ->]. }
  destruct (run prog _ answers) as [s1 tr1]. simpl in *.
  split; [done|]. split; [|done]. apply H2. by destruct Hpc as [-> | ->].
Qed.
End AssertFacts.

(** ** The further facts on concrete runs *)

(** client.c on the complete exchange: it returns 0, with no waker live
    and the executor freed. *)
Lemma success_exit_releases_all_witness :
  st_pc (main (H:=example_h) Client setup_ok full_exchange).1 = Exited 0 ∧
  live_wakers (main (H:=example_h) Client setup_ok full_exchange).2 = ∅ ∧
  count_calls "fluxio_executor_free"
    (main (H:=example_h) Client setup_ok full_exchange).2 = 1%nat.
Proof.
  assert (st_pc (main (H:=example_h) Client setup_ok full_exchange).1 = Exited 0) as E
    by reflexivity.
  destruct (success_exit_releases_all (H:=example_h) Client setup_ok full_exchange)
    as [W _].
  destruct (W E) as (W1 & _ & _ & _ & W2).
  split; [exact E|]. split; [exact W1 | exact W2].
Defined.

(** client.c on the complete exchange: four tasks polled, four freed. *)
Lemma polled_tasks_freed_once_witness :
  count_calls "fluxio_task_free" (main (H:=example_h) Client setup_ok full_exchange).2 =
    polled_tasks (main (H:=example_h) Client setup_ok full_exchange).2.
Proof.
  assert (Forall tag_of_enum full_exchange) as Htags.
  { unfold full_exchange, task, EXAMPLE_HANDSHAKE, EXAMPLE_SEND, EXAMPLE_NOT_SET,
      EXAMPLE_RESP_BODY.
    repeat (apply Forall_cons_2; [simpl; first [exact I | lia]|]). apply Forall_nil_2. }
  destruct (polled_tasks_freed_once (H:=example_h) Client setup_ok full_exchange Htags)
    as [_ W].
  apply W. reflexivity.
Defined.

(** client.c when the handshake task comes back with the userdata
    [2 ^ 32 + 1], which the conversion to [example_id] takes to
    [EXAMPLE_HANDSHAKE]: the send task, tagged at position 33 of the trace,
    follows that poll. *)
Lemma tags_follow_the_protocol_witness :
  entitles Client
    (last_poll
       (take 33 (main (H:=example_h) Client setup_ok
                   [APoll [] (Some (task (2 ^ 32 + 1) FLUXIO_TASK_CLIENTCONN))]).2))
    EXAMPLE_SEND.
Proof.
  apply (tags_follow_the_protocol (H:=example_h) Client setup_ok
           [APoll [] (Some (task (2 ^ 32 + 1) FLUXIO_TASK_CLIENTCONN))]
           (take 33 (main (H:=example_h) Client setup_ok
                       [APoll [] (Some (task (2 ^ 32 + 1) FLUXIO_TASK_CLIENTCONN))]).2)
           (drop 34 (main (H:=example_h) Client setup_ok
                       [APoll [] (Some (task (2 ^ 32 + 1) FLUXIO_TASK_CLIENTCONN))]).2)
           EXAMPLE_SEND).
  reflexivity.
Defined.

(** Five bytes through a buffer of two, the first two reads delivering one
    byte each: four chunks that make up the file. *)
Lemma upload_chunks_are_a_prefix_witness :
  concat (chunks_of (engine_pull_body (H:=example_h) source_read 6
                       {| src_data := abcde; src_pos := 0; src_script := [1; 0; 3] |}
                       {| upload_fd := 3; upload_buf := []; upload_len := 2 |})) = abcde.
Proof.
  assert (0 < 2)%nat as HB by lia.
  destruct (upload_chunks_are_a_prefix (H:=example_h) abcde [] [1; 0; 3] 3 2 6 HB)
    as (_ & _ & W).
  destruct W as (_ & W & _).
  - repeat constructor; lia.
  - simpl. lia.
  - exact W.
Defined.

(** client.c when the handshake task comes back with the userdata
    [2 ^ 32 + 1] and no payload: the conversion takes the userdata to
    [EXAMPLE_HANDSHAKE], the completion is not the expected one, and the
    [assert] fails. *)
Lemma assert_fails_on_first_unexpected_completion_witness :
  expected Client (2 ^ 32 + 1) FLUXIO_TASK_EMPTY = false ∧
  assert_trace Client Aborted
    (main (H:=example_h) Client setup_ok
       [APoll [] (Some (task (2 ^ 32 + 1) FLUXIO_TASK_EMPTY))]).2.
Proof.
  split; [reflexivity|].
  pose proof (assert_fails_on_first_unexpected_completion (H:=example_h) Client setup_ok
                [APoll [] (Some (task (2 ^ 32 + 1) FLUXIO_TASK_EMPTY))]) as [W _].
  exact W.
Defined.
